(** * Inline IDL micro-syntax: parser and renderer

    A shallow embedding of [parseInlineIDL] and [idlStringToHtml] together
    with the fragment of ECMAScript regular expressions, the string
    primitives and the object store they run on.

    Characters are the 8-bit characters of [Ascii.ascii], read as code units
    0..255; a JavaScript string is a [string]. *)

From Stdlib Require Import Ascii String ZArith Lia DecimalString DecimalPos
  DecimalFacts.
From stdpp Require Import base list strings.

Local Open Scope stdpp_scope.

(** ** Characters and strings *)

(** The double quote and the line feed, which the patterns and the markup
    templates contain. *)
Definition dquote : ascii := ascii_of_nat 34.
Definition dq : string := String dquote "".
Definition nl : string := String (ascii_of_nat 10) "".

Definition code (c : ascii) : nat := nat_of_ascii c.

Definition in_range (lo hi : nat) (c : ascii) : bool :=
  (lo <=? code c)%nat && (code c <=? hi)%nat.

(** [\w]: the basic Latin letters, the decimal digits and the underscore. *)
Definition is_word (c : ascii) : bool :=
  in_range 97 122 c || in_range 65 90 c || in_range 48 57 c
  || (code c =? 95)%nat.

(** LineTerminator, as far as it lies in the 8-bit range: LF and CR. *)
Definition is_line_terminator (c : ascii) : bool :=
  (code c =? 10)%nat || (code c =? 13)%nat.

(** [\s]: WhiteSpace and LineTerminator, as far as they lie in the 8-bit
    range: TAB, LF, VT, FF, CR, SP and NBSP. *)
Definition is_space (c : ascii) : bool :=
  in_range 9 13 c || (code c =? 32)%nat || (code c =? 160)%nat.

Definition take_string (n : nat) (s : string) : string := String.substring 0 n s.

Fixpoint string_forallb (p : ascii -> bool) (s : string) : bool :=
  match s with
  | EmptyString => true
  | String c s' => p c && string_forallb p s'
  end.

Definition is_empty (s : string) : bool :=
  match s with EmptyString => true | String _ _ => false end.

(** ** Regular expressions

    The fragment of ECMAScript patterns the program uses: a character or a
    character class, greedy [*] and [+] on a class, a capture group,
    concatenation, and the assertions [^] and [$] (no [m] flag: start and
    end of the input). *)
Module RegExp.

Inductive charset : Type :=
| Char (c : ascii)                 (* a literal character *)
| Word                             (* \w *)
| Space                            (* \s *)
| Dot                              (* .  *)
| Union (a b : charset).           (* [ab] *)

Fixpoint mem (cs : charset) (c : ascii) : bool :=
  match cs with
  | Char c' => Ascii.eqb c' c
  | Word => is_word c
  | Space => is_space c
  | Dot => negb (is_line_terminator c)
  | Union a b => mem a c || mem b c
  end.

Inductive regex : Type :=
| Atom (cs : charset)
| Star (cs : charset)
| Plus (cs : charset)
| Group (r : regex)
| Cat (r1 r2 : regex)
| AssertStart
| AssertEnd.

(** The state of a match: the end index reached, the input from there on,
    and the captures closed so far. Groups are numbered as they close,
    which is the order they open in since no pattern here nests
    groups. *)
Record state : Type := State {
  endIndex : nat;
  rest : string;
  captures : list string
}.

Definition advance (x : state) (rest' : string) : state :=
  State (S (endIndex x)) rest' (captures x).

Definition step (cs : charset) (x : state) : list state :=
  match rest x with
  | String ch rest' => if mem cs ch then [advance x rest'] else []
  | EmptyString => []
  end.

(** Greedy repetition of a class from the state with end index [e] and
    captures [caps]: the longest run first, the empty run last. *)
Fixpoint repeat_greedy (cs : charset) (e : nat) (caps : list string)
    (input : string) : list state :=
  match input with
  | String ch rest' =>
      if mem cs ch
      then repeat_greedy cs (S e) caps rest' ++ [State e input caps]
      else [State e input caps]
  | EmptyString => [State e input caps]
  end.

Definition close_group (x y : state) : state :=
  State (endIndex y) (rest y)
    (captures y ++ [take_string (endIndex y - endIndex x) (rest x)]).

(** The matcher of a pattern: every way to match it from a state, in the
    order backtracking tries them. *)
Fixpoint matcher (r : regex) (x : state) : list state :=
  match r with
  | Atom cs => step cs x
  | Star cs => repeat_greedy cs (endIndex x) (captures x) (rest x)
  | Plus cs =>
      y ← step cs x; repeat_greedy cs (endIndex y) (captures y) (rest y)
  | Group r => close_group x <$> matcher r x
  | Cat r1 r2 => y ← matcher r1 x; matcher r2 y
  | AssertStart => if (endIndex x =? 0)%nat then [x] else []
  | AssertEnd => if is_empty (rest x) then [x] else []
  end.

(** A match at a given index (a sticky match): the first success. *)
Definition match_at (r : regex) (i : nat) (input : string) : option state :=
  head (matcher r (State i input [])).

(** The array a successful match returns: the matched text, then the
    captures. *)
Definition match_array (i : nat) (input : string) (y : state) : list string :=
  take_string (endIndex y - i) input :: captures y.

(** RegExpBuiltinExec without the [g] and [y] flags: try each start index
    from the left, up to and including the end of the input. *)
Fixpoint exec_from (r : regex) (i : nat) (input : string) : option (list string) :=
  match match_at r i input with
  | Some y => Some (match_array i input y)
  | None =>
      match input with
      | String _ input' => exec_from r (S i) input'
      | EmptyString => None
      end
  end.

Definition exec (r : regex) (s : string) : option (list string) :=
  exec_from r 0 s.

Definition test (r : regex) (s : string) : bool := bool_decide (is_Some (exec r s)).

(** [String.prototype.match] with a pattern without the [g] flag: the result
    of [exec]. *)
Definition match_ (s : string) (r : regex) : option (list string) := exec r s.

End RegExp.

Import RegExp.

Definition Lit (c : ascii) : regex := Atom (Char c).

Declare Scope regex_scope.
Delimit Scope regex_scope with re.
Infix "~>" := Cat (at level 41, right associativity) : regex_scope.

(** The method pattern: a group of [\w+], an opening parenthesis, a group
    of [.*], a closing parenthesis and [$]. It has no [^]: a match may start
    anywhere in the token. *)
Definition methodRegex : regex :=
  (Group (Plus Word) ~> Lit "("%char ~> Group (Star Dot) ~> Lit ")"%char
   ~> AssertEnd)%re.

(** The internal slot pattern: [$], two opening brackets, a group of [\w+],
    two closing brackets and [$]. It opens with the end-of-input assertion,
    as the source has it. *)
Definition slotRegex : regex :=
  (AssertEnd ~> Lit "["%char ~> Lit "["%char ~> Group (Plus Word)
   ~> Lit "]"%char ~> Lit "]"%char ~> AssertEnd)%re.

(** The attribute pattern: [^], a group of [\w+] and [$]. *)
Definition attributeRegex : regex :=
  (AssertStart ~> Group (Plus Word) ~> AssertEnd)%re.

(** The enum pattern: [^], a group of [\w+], an opening bracket, a double
    quote, a group of one or more word characters or spaces, a double quote,
    a closing bracket and [$]. *)
Definition enumRegex : regex :=
  (AssertStart ~> Group (Plus Word) ~> Lit "["%char ~> Lit dquote
   ~> Group (Plus (Union Word (Char " "%char))) ~> Lit dquote ~> Lit "]"%char
   ~> AssertEnd)%re.

(** The separator of the argument list, [,\s*]. *)
Definition argSeparator : regex := (Lit ","%char ~> Star Space)%re.

(** ** String primitives *)

(** [String.prototype.split] with a separator of one character: the pieces
    between the occurrences of the separator, so one more piece than there
    are occurrences. *)
Fixpoint split_char (sep : ascii) (s : string) : list string :=
  match s with
  | EmptyString => [EmptyString]
  | String c s' =>
      if Ascii.eqb c sep then EmptyString :: split_char sep s'
      else match split_char sep s' with
           | piece :: pieces => String c piece :: pieces
           | [] => [String c EmptyString]
           end
  end.

(** The loop of [RegExp.prototype[Symbol.split]]: [q] is the index tried,
    [input] the string from [q] on, and [piece] the text between the end
    [p] of the last separator and [q]. A match at [q] that ends at [p] is
    empty and is passed over; any other match closes the piece, contributes
    its captures, and moves both [p] and [q] to its end. Each pass either
    advances [q] or leaves an empty piece behind, so twice the size of the
    string and one are passes enough. *)
Fixpoint split_loop (fuel : nat) (r : regex) (q : nat) (piece input : string)
    : list string :=
  match fuel with
  | O => [piece +:+ input]
  | S fuel' =>
      match input with
      | EmptyString => [piece]
      | String c input' =>
          match match_at r q input with
          | None => split_loop fuel' r (S q) (piece +:+ String c "") input'
          | Some y =>
              if (endIndex y =? q - String.length piece)%nat
              then split_loop fuel' r (S q) (piece +:+ String c "") input'
              else piece :: captures y
                     ++ split_loop fuel' r (endIndex y) "" (rest y)
          end
      end
  end.

(** [String.prototype.split] with a pattern and no limit. *)
Definition split_regex (r : regex) (s : string) : list string :=
  match s with
  | EmptyString => match match_at r 0 s with Some _ => [] | None => [s] end
  | _ => split_loop (2 * String.length s + 1) r 0 "" s
  end.

(** [String.prototype.trimStart] and [String.prototype.trim], on the 8-bit
    white space of [is_space]. *)
Fixpoint trimStart (s : string) : string :=
  match s with
  | String c s' => if is_space c then trimStart s' else s
  | EmptyString => EmptyString
  end.

Definition trim (s : string) : string :=
  String.rev (trimStart (String.rev (trimStart s))).

(** ** Values, objects and the store *)

Abbreviation addr := nat.

(** The values the fields of a segment object hold: [undefined], [null], a
    string, or a reference to an object of the store. *)
Inductive value : Type :=
| Undefined
| Null
| Str (s : string)
| Ref (a : addr).

(** ToBoolean. *)
Definition truthy (v : value) : bool :=
  match v with
  | Undefined | Null => false
  | Str s => negb (is_empty s)
  | Ref _ => true
  end.

(** ToString, on the values interpolated into template literals. *)
Definition to_string (v : value) : string :=
  match v with
  | Undefined => "undefined"
  | Null => "null"
  | Str s => s
  | Ref _ => "[object Object]"
  end.

(** What [parseInlineIDL] pushes for a token: the [type] tag with the
    properties that come with it. *)
Inductive Details : Type :=
| Method (identifier : string) (args : list string)
| InternalSlot (identifier : string)
| EnumValue (identifier : string) (enumValue : string)
| Attribute (identifier : string)
| Base (identifier : string).

Definition type (d : Details) : string :=
  match d with
  | Method _ _ => "method"
  | InternalSlot _ => "internal-slot"
  | EnumValue _ _ => "enum-value"
  | Attribute _ => "attribute"
  | Base _ => "base"
  end.

Definition identifier (d : Details) : string :=
  match d with
  | Method i _ | InternalSlot i | EnumValue i _ | Attribute i | Base i => i
  end.

(** A segment object: the properties set at creation, and [parent] and
    [idlType], which are assigned later and [undefined] until then. *)
Record Segment : Type := mkSegment {
  details : Details;
  parent : value;
  idlType : value
}.

Definition set_parent (v : value) (o : Segment) : Segment :=
  mkSegment (details o) v (idlType o).

Definition set_idlType (v : value) (o : Segment) : Segment :=
  mkSegment (details o) (parent o) v.

(** The store: the objects allocated so far, an object's address being its
    index. Arrays of objects are lists of addresses. *)
Abbreviation heap := (list Segment).

Inductive exn : Type :=
| SyntaxError (message : string)
| TypeError (message : string)
| DanglingReference.   (* a reference outside the store: no JavaScript
                          behaviour; [idlStringToHtml_throws] shows it does
                          not occur *)

Inductive outcome (A : Type) : Type :=
| Return (a : A)
| Throw (e : exn).
Arguments Return {A} a.
Arguments Throw {A} e.

(** Computations on the store that return or throw. *)
Definition M (A : Type) : Type := heap -> outcome A * heap.

Definition ret {A} (a : A) : M A := fun h => (Return a, h).
Definition throw {A} (e : exn) : M A := fun h => (Throw e, h).
Definition bind {A B} (m : M A) (k : A -> M B) : M B :=
  fun h => match m h with
           | (Return a, h') => k a h'
           | (Throw e, h') => (Throw e, h')
           end.

Declare Scope js_scope.
Delimit Scope js_scope with js.
Notation "'let*' x ':=' m 'in' k" := (bind m (fun x => k))
  (at level 10, x name, m at level 100, k at level 200) : js_scope.
Notation "m ';;;' k" := (bind m (fun _ => k))
  (at level 100, k at level 200, right associativity) : js_scope.

(** An object literal: a fresh object at the next address. *)
Definition new (d : Details) : M addr :=
  fun h => (Return (length h), h ++ [mkSegment d Undefined Undefined]).

Definition load (a : addr) : M Segment :=
  fun h => match h !! a with
           | Some o => (Return o, h)
           | None => (Throw DanglingReference, h)
           end.

Definition modify (a : addr) (f : Segment -> Segment) : M unit :=
  fun h => match h !! a with
           | Some o => (Return tt, <[a := f o]> h)
           | None => (Throw DanglingReference, h)
           end.

(** ** The parser *)

Definition string_of_number (n : Z) : string := NilZero.string_of_int (Z.to_int n).

(** The message of the syntax error, for the token [v] and the position
    [count]. *)
Definition syntax_error_message (v : string) (count : Z) : string :=
  "IDL micro-syntax parsing error: " +:+ dq +:+ v +:+ dq +:+ " at token "
  +:+ string_of_number count +:+ ".".

(** The array destructuring of a match result with one and with two groups
    (the first element, the whole match, is skipped). *)
Definition captured1 (m : option (list string)) : option string :=
  match m with
  | Some (_ :: x :: _) => Some x
  | _ => None
  end.

Definition captured2 (m : option (list string)) : option (string * string) :=
  match m with
  | Some (_ :: x :: y :: _) => Some (x, y)
  | _ => None
  end.

Definition destructuring_error : exn :=
  TypeError "undefined is not iterable".

(** Reading a property of [null] or [undefined]. *)
Definition null_property_error : exn :=
  TypeError "Cannot read properties of null".

(** [arg => arg] as a filter: the non-empty strings. *)
Definition nonempty (s : string) : bool := negb (is_empty s).

Section Parser.
Local Open Scope js_scope.

(** The [while] loop. [pending] holds the tokens in the order [pop] takes
    them, the last one first, so that the tail of [pending] is what is
    left in [tokens] after the [pop]; [results] is the array of the
    objects pushed so far. *)
Fixpoint parse_loop (pending : list string) (count : Z) (results : list addr)
    : M (list addr) :=
  match pending with
  | [] => ret results
  | v :: tokens =>
      let count := (count - 1)%Z in
      if test methodRegex v then
        match captured2 (match_ v methodRegex) with
        | Some (identifier, allArgs) =>
            let args := filter nonempty (split_regex argSeparator allArgs) in
            let* o := new (Method identifier args) in
            parse_loop tokens count (results ++ [o])
        | None => throw destructuring_error
        end
      else if test slotRegex v then
        match captured1 (match_ v slotRegex) with
        | Some identifier =>
            let* o := new (InternalSlot identifier) in
            parse_loop tokens count (results ++ [o])
        | None => throw destructuring_error
        end
      else if test enumRegex v then
        match captured2 (match_ v enumRegex) with
        | Some (identifier, enumValue) =>
            let* o := new (EnumValue identifier enumValue) in
            parse_loop tokens count (results ++ [o])
        | None => throw destructuring_error
        end
      else if test attributeRegex v && negb (length tokens =? 0)%nat then
        match captured1 (match_ v attributeRegex) with
        | Some identifier =>
            let* o := new (Attribute identifier) in
            parse_loop tokens count (results ++ [o])
        | None => throw destructuring_error
        end
      else if test attributeRegex v && (length tokens =? 0)%nat then
        let* o := new (Base v) in
        parse_loop tokens count (results ++ [o])
      else
        throw (SyntaxError (syntax_error_message v (count + 1)%Z))
  end.

(** [list[i + 1] || null]: the next element of the array, or [null] past
    its end. *)
Definition next_or_null (list : list addr) (i : nat) : value :=
  match list !! (i + 1)%nat with
  | Some a => Ref a
  | None => Null
  end.

(** The [forEach] that links the list: the callback runs on the items
    from index [i] on. *)
Fixpoint link_from (items : list addr) (i : nat) (list : list addr) : M unit :=
  match items with
  | [] => ret tt
  | item :: items' =>
      modify item (set_parent (next_or_null list i)) ;;;
      link_from items' (S i) list
  end.

Definition parseInlineIDL (str : string) : M (list addr) :=
  let tokens := split_char "." str in
  let count := Z.of_nat (length tokens) in
  let* results := parse_loop (reverse tokens) count [] in
  link_from results 0 results ;;;
  ret (reverse results).

End Parser.

(** ** The document and the markup *)

(** An element with a [data-type] attribute, as the lookups read it: its
    text content and [dataset.type]. *)
Record Element : Type := mkElement {
  textContent : string;
  dataType : string
}.

(** The context node of a rendering, as [findMarchingVarType] uses it. *)
Inductive Context : Type :=
| NoContext                      (* a falsy [contextNode] *)
| Detached                       (* no parent element, or no enclosing
                                    section or body: the chain of property
                                    reads meets [null] *)
| Within (vars : list Element).  (* the [var[data-type]] elements of the
                                    closest section or body, in document
                                    order *)

(** What a tagged template receives: the constant strings of the literal and
    the interpolated values. [hyperHTML] is an external library; a node it
    returns is identified with the call that made it. *)
Inductive Hole : Type :=
| HValue (v : value)
| HStrings (l : list string)
| HNodes (l : list Node)
with Node : Type :=
| Template (strings : list string) (holes : list Hole).

Definition hyperHTML (strings : list string) (holes : list Hole) : Node :=
  Template strings holes.

Definition args (d : Details) : option (list string) :=
  match d with
  | Method _ a => Some a
  | _ => None
  end.

Definition enumValue (d : Details) : value :=
  match d with
  | EnumValue _ e => Str e
  | _ => Undefined
  end.

(** [Array.prototype.map] with a callback that may throw. *)
Fixpoint mapM {A B} (f : A -> M B) (l : list A) : M (list B) :=
  match l with
  | [] => ret []
  | x :: l' =>
      (let* y := f x in
       let* ys := mapM f l' in
       ret (y :: ys))%js
  end.

(** ** The renderer *)

(** The tagged templates of the render functions, each as a function of the
    values interpolated into it. *)
Section Templates.

Definition var_html (idlType : value) (identifier : string) : Node :=
  hyperHTML ["<var data-type=" +:+ dq; dq +:+ ">"; "</var>"]
            [HValue idlType; HValue (Str identifier)].

Definition xref_html (identifier : string) : Node :=
  hyperHTML ["<a data-xref-type=" +:+ dq +:+ "_IDL_" +:+ dq +:+ ">"; "</a>"]
            [HValue (Str identifier)].

Definition slot_html (type : string) (idlType : value) (lt identifier : string)
    : Node :=
  hyperHTML
    [".[[<code><a" +:+ nl +:+ "    class=" +:+ dq +:+ "respec-idl-xref"
       +:+ dq +:+ nl +:+ "    data-xref-type=" +:+ dq;
     dq +:+ nl +:+ "    data-type=" +:+ dq;
     dq +:+ nl +:+ "    data-lt=" +:+ dq;
     dq +:+ ">";
     "</a></code>]]"]
    [HValue (Str type); HValue idlType; HValue (Str lt);
     HValue (Str identifier)].

Definition attribute_html (type : string) (idlType : value)
    (identifier : string) : Node :=
  hyperHTML
    [".<a" +:+ nl +:+ "      class=" +:+ dq +:+ "respec-idl-xref" +:+ dq
       +:+ nl +:+ "      data-xref-type=" +:+ dq;
     dq +:+ nl +:+ "      data-link-for=" +:+ dq;
     dq +:+ ">";
     "</code></a>"]
    [HValue (Str type); HValue idlType; HValue (Str identifier)].

(** The template literal of an argument of a method, a plain string. *)
Definition arg_text (typed : value * string) : string :=
  let '(type, arg) := typed in
  "<var data-type=" +:+ dq +:+ to_string type +:+ dq +:+ ">" +:+ arg
  +:+ "</var>".

Definition method_html (type : string) (idlType : value)
    (identifier argsText : string) : Node :=
  hyperHTML
    [".<a" +:+ nl +:+ "    class=" +:+ dq +:+ "respec-idl-xref" +:+ dq
       +:+ nl +:+ "    data-xref-type=" +:+ dq;
     dq +:+ nl +:+ "    data-link-for=" +:+ dq;
     dq +:+ nl +:+ "    >";
     "</a>(";
     ")"]
    [HValue (Str type); HValue idlType; HValue (Str identifier);
     HStrings [argsText]].

Definition enum_html (type identifier : string) (enumValue : value) : Node :=
  hyperHTML
    [dq +:+ "<a" +:+ nl +:+ "      class=" +:+ dq +:+ "respec-idl-xref"
       +:+ dq +:+ nl +:+ "      data-xref-type=" +:+ dq;
     dq +:+ nl +:+ "      data-link-for=" +:+ dq;
     dq +:+ nl +:+ "      >";
     "</a>" +:+ dq]
    [HValue (Str type); HValue (Str identifier); HValue enumValue].

End Templates.

Section Renderer.
Local Open Scope js_scope.

(** The [dfn[data-type]] elements of the document body, in document
    order. *)
Variable dfns : list Element.

Definition matches (varName : string) (e : Element) : bool :=
  String.eqb (trim (textContent e)) varName.

Definition findDfnType (varName : string) : value :=
  match find (matches varName) dfns with
  | Some e => Str (dataType e)
  | None => Null
  end.

Definition findMarchingVarType (varName : string) (contextNode : Context)
    : M value :=
  match contextNode with
  | NoContext => ret Null
  | Detached => throw null_property_error
  | Within potentialVars =>
      match find (matches varName) potentialVars with
      | Some matchedVar => ret (Str (dataType matchedVar))
      | None => ret Null
      end
  end.

Definition renderBase (d : addr) (contextNode : Context) : M Node :=
  let* o := load d in
  let identifier := identifier (details o) in
  let* t := findMarchingVarType identifier contextNode in
  modify d (set_idlType t) ;;;
  let* o := load d in
  let html :=
    if truthy (idlType o) then var_html (idlType o) identifier
    else xref_html identifier in
  (if negb (truthy (idlType o))
   then modify d (set_idlType (Str identifier))
   else ret tt) ;;;
  ret html.

Definition renderInternalSlot (d : addr) : M Node :=
  let* o := load d in
  let identifier := identifier (details o) in
  let type := type (details o) in
  modify d (set_idlType (findDfnType ("[[" +:+ identifier +:+ "]]"))) ;;;
  let lt := "[[" +:+ identifier +:+ "]]" in
  let* o := load d in
  ret (slot_html type (idlType o) lt identifier).

Definition renderAttribute (d : addr) : M Node :=
  let* o := load d in
  let identifier := identifier (details o) in
  let type := type (details o) in
  let* idlType :=
    match parent o with
    | Ref p => let* po := load p in ret (idlType po)
    | Str s => ret (if truthy (Str s) then Undefined else Null)
    | Null | Undefined => ret Null
    end in
  ret (attribute_html type idlType identifier).

Definition renderMethod (d : addr) (contextNode : Context) : M Node :=
  let* o := load d in
  let identifier := identifier (details o) in
  let type := type (details o) in
  let* idlType :=
    match parent o with
    | Ref p => let* po := load p in ret (idlType po)
    | Str _ => ret Undefined
    | Null | Undefined => throw null_property_error
    end in
  let* typed :=
    match args (details o) with
    | Some args =>
        mapM (fun arg =>
                let* type := findMarchingVarType arg contextNode in
                ret (type, arg)) args
    | None => throw null_property_error
    end in
  let argsText := String.concat ", " (arg_text <$> typed) in
  ret (method_html type idlType identifier argsText).

Definition renderEnum (d : addr) : M Node :=
  let* o := load d in
  let identifier := identifier (details o) in
  let type := type (details o) in
  let enumValue := enumValue (details o) in
  ret (enum_html type identifier enumValue).

(** The body of the [for ... of] loop: the [switch] on the type of the
    segment. The tags are the five constructors of [Details], so the
    [default] branch has no case here. *)
Definition render_segment (contextNode : Context) (d : addr) : M Node :=
  let* o := load d in
  match details o with
  | Base _ => renderBase d contextNode
  | Attribute _ => renderAttribute d
  | InternalSlot _ => renderInternalSlot d
  | Method _ _ => renderMethod d contextNode
  | EnumValue _ _ => renderEnum d
  end.

Fixpoint render_loop (contextNode : Context) (results : list addr)
    (output : list Node) : M (list Node) :=
  match results with
  | [] => ret output
  | d :: results' =>
      let* html := render_segment contextNode d in
      render_loop contextNode results' (output ++ [html])
  end.

(** [idlStringToHtml]: an array is truthy, so the early return is never
    taken; the result is the fragment wired from the nodes. *)
Definition idlStringToHtml (str : string) (contextNode : Context) : M Node :=
  let* results := parseInlineIDL str in
  let* output := render_loop contextNode results [] in
  ret (hyperHTML [""; ""] [HNodes output]).

End Renderer.

(** * Specification-level definitions *)

(** ** Patterns and matches *)

(** The number of capture groups of a pattern. *)
Fixpoint groups (r : regex) : nat :=
  match r with
  | Group r => S (groups r)
  | Cat r1 r2 => groups r1 + groups r2
  | _ => 0
  end.

(** What a state [y] reached from [x] has consumed: the text [p]. *)
Definition consumed (x y : state) (p : string) : Prop :=
  rest x = p +:+ rest y ∧ endIndex y = endIndex x + String.length p.

(** A bare word: one or more word characters and nothing else. *)
Definition is_bare_word (s : string) : bool :=
  nonempty s && string_forallb is_word s.

(** A text the class [.] accepts throughout. *)
Definition no_line_terminator (s : string) : bool :=
  string_forallb (fun c => negb (is_line_terminator c)) s.

(** The text of an enum value: one or more word characters or spaces. *)
Definition enum_text (s : string) : bool :=
  nonempty s && string_forallb (fun c => is_word c || Ascii.eqb " " c) s.

(** ** The split of the specification *)

(** The number of occurrences of a character in a string. *)
Fixpoint occurrences (c : ascii) (s : string) : nat :=
  match s with
  | EmptyString => 0
  | String c' s' => (if Ascii.eqb c' c then 1 else 0) + occurrences c s'
  end.

(** Splitting on a comma followed by optional white space, in the words of
    the specification: walking the text, a comma closes the current piece
    and opens a run of white space that belongs to the separator; any
    other character joins the current piece. *)
Fixpoint split_on_commas (in_separator : bool) (piece s : string)
    : list string :=
  match s with
  | EmptyString => [piece]
  | String c s' =>
      if in_separator && is_space c then split_on_commas true piece s'
      else if Ascii.eqb c "," then piece :: split_on_commas true "" s'
      else split_on_commas false (piece +:+ String c "") s'
  end.

Definition split_args_spec (s : string) : list string :=
  split_on_commas false "" s.

(** ** Classification of tokens *)

(** A token that some pattern matches. *)
Definition accepts (v : string) : bool :=
  test methodRegex v || test slotRegex v || test enumRegex v
  || test attributeRegex v.

(** What the loop pushes for the token [v] when [remaining] tokens are
    left after it, if anything. *)
Definition classify (v : string) (remaining : nat) : option Details :=
  match captured2 (exec methodRegex v) with
  | Some (identifier, allArgs) =>
      Some (Method identifier
              (filter nonempty (split_regex argSeparator allArgs)))
  | None =>
      match captured1 (exec slotRegex v) with
      | Some identifier => Some (InternalSlot identifier)
      | None =>
          match captured2 (exec enumRegex v) with
          | Some (identifier, enumValue) =>
              Some (EnumValue identifier enumValue)
          | None =>
              if test attributeRegex v
              then Some (if (remaining =? 0)%nat then Base v else Attribute v)
              else None
          end
      end
  end.

(** A fresh object, as [new] stores it. *)
Definition fresh (d : Details) : Segment := mkSegment d Undefined Undefined.

(** The details pushed for the tokens popped before the first one that no
    pattern matches, in the order they are popped. *)
Fixpoint classified (pending : list string) : list Details :=
  match pending with
  | [] => []
  | v :: tokens =>
      match classify v (length tokens) with
      | Some d => d :: classified tokens
      | None => []
      end
  end.

(** The first token popped that no pattern matches, with its position
    counted from the left and from 1. *)
Fixpoint rejected (pending : list string) : option (string * nat) :=
  match pending with
  | [] => None
  | v :: tokens =>
      match classify v (length tokens) with
      | Some _ => rejected tokens
      | None => Some (v, S (length tokens))
      end
  end.

(** The parent the linking assigns to the object at index [j] of an array
    of [n] objects allocated from address [b] on. *)
Definition parent_link (b n j : nat) : value :=
  if (j + 1 <? n)%nat then Ref (b + j + 1) else Null.

(** The objects of a chain after the linking. *)
Definition linked (b : nat) (ds : list Details) : list Segment :=
  imap (λ j d, mkSegment d (parent_link b (length ds) j) Undefined) ds.

(** The segment to the left of the one at index [i] of a chain, or [null]
    for the first. *)
Definition left_neighbour (chain : list addr) (i : nat) : value :=
  match i with
  | 0 => Null
  | S i' => match chain !! i' with Some p => Ref p | None => Null end
  end.

(** The kind [Base]. *)
Definition is_base (d : Details) : bool :=
  match d with Base _ => true | _ => false end.

(** ** Rendering without the store *)

(** The type of a variable in the context, without the store. *)
Definition lookupVar (ctx : Context) (varName : string) : outcome value :=
  match ctx with
  | NoContext => Return Null
  | Detached => Throw null_property_error
  | Within potentialVars =>
      match find (matches varName) potentialVars with
      | Some matchedVar => Return (Str (dataType matchedVar))
      | None => Return Null
      end
  end.

Fixpoint lookupVars (ctx : Context) (args : list string)
    : outcome (list (value * string)) :=
  match args with
  | [] => Return []
  | arg :: args' =>
      match lookupVar ctx arg with
      | Return t =>
          match lookupVars ctx args' with
          | Return typed => Return ((t, arg) :: typed)
          | Throw e => Throw e
          end
      | Throw e => Throw e
      end
  end.

(** What rendering one segment yields, given the [idlType] of its parent
    ([None] for a [null] parent): the node, and the [idlType] the segment
    is left with. *)
Definition render_one (dfns : list Element) (ctx : Context)
    (pidl : option value) (d : Details)
    : outcome (Node * value) :=
  match d with
  | Base id =>
      match lookupVar ctx id with
      | Return t =>
          Return (if truthy t then (var_html t id, t)
                  else (xref_html id, Str id))
      | Throw e => Throw e
      end
  | Attribute id =>
      Return (attribute_html (type d) (default Null pidl) id, Undefined)
  | InternalSlot id =>
      let t := findDfnType dfns ("[[" +:+ id +:+ "]]") in
      Return (slot_html (type d) t ("[[" +:+ id +:+ "]]") id, t)
  | Method id args =>
      match pidl with
      | Some idl =>
          match lookupVars ctx args with
          | Return typed =>
              Return (method_html (type d) idl id
                        (String.concat ", " (arg_text <$> typed)),
                      Undefined)
          | Throw e => Throw e
          end
      | None => Throw null_property_error
      end
  | EnumValue id e => Return (enum_html (type d) id (Str e), Undefined)
  end.

(** Rendering a chain from the left, each segment seeing the [idlType] its
    left neighbour was left with. *)
Fixpoint render_chain (dfns : list Element) (ctx : Context)
    (pidl : option value) (ds : list Details)
    : outcome (list Node) :=
  match ds with
  | [] => Return []
  | d :: ds' =>
      match render_one dfns ctx pidl d with
      | Return (html, idl) =>
          match render_chain dfns ctx (Some idl) ds' with
          | Return output => Return (html :: output)
          | Throw e => Throw e
          end
      | Throw e => Throw e
      end
  end.

(** The parent of an object followed in the store by [suffix], at address
    [next]: [null], or the first object of [suffix], whose [idlType] is
    [pidl]. *)
Definition parent_at (next : addr) (top : value) (suffix : heap)
    (pidl : option value) : Prop :=
  (top = Null ∧ pidl = None)
  ∨ (top = Ref next ∧ ∃ p suffix', suffix = p :: suffix'
                                   ∧ pidl = Some (idlType p)).

(** The objects of the tokens not yet rendered: linked to each other, the
    last one to [top]. *)
Definition unrendered (b : nat) (top : value) (ds : list Details) : heap :=
  imap (λ j d, mkSegment d (if (j + 1 <? length ds)%nat then Ref (b + j + 1)
                             else top) Undefined) ds.

(** ** Chains *)

(** The string [Foo["enum value"]]. *)
Definition enum_input : string :=
  "Foo[" +:+ dq +:+ "enum value" +:+ dq +:+ "]".

(** The store that parsing "Foo.bar" leaves, from the empty store. *)
Definition foo_bar_heap : heap :=
  [mkSegment (Attribute "bar") (Ref 1) Undefined;
   mkSegment (Base "Foo") Null Undefined].

(** The tokens of a string, and whether the leftmost one is a bare
    word. *)
Definition tokens_of (str : string) : list string := split_char "." str.

Definition leftmost_is_bare_word (str : string) : bool :=
  match tokens_of str with
  | v :: _ => is_bare_word v
  | [] => false
  end.

(** C2, as the claim states it: the chain has one segment per token, and
    the segment at index [i] is a base exactly when [i] is 0. *)
Definition one_base_first (str : string) (h' : heap) (chain : list addr)
    : Prop :=
  length chain = length (tokens_of str)
  ∧ ∀ i a, chain !! i = Some a →
           ∃ o, h' !! a = Some o ∧ (is_base (details o) = true ↔ i = 0).

(** Following the parent links [k] times from the object at [a]. *)
Fixpoint follow (h : heap) (k : nat) (a : addr) : option addr :=
  match k with
  | 0 => Some a
  | S k' =>
      match h !! a with
      | Some o =>
          match parent o with
          | Ref p => follow h k' p
          | _ => None
          end
      | None => None
      end
  end.

(** C6, as the claim states it: on a string of several tokens that
    parses, the segment of the leftmost token is a base. *)
Definition leftmost_is_base (str : string) (h' : heap) (chain : list addr)
    : Prop :=
  ∃ a o, head chain = Some a ∧ h' !! a = Some o ∧ is_base (details o) = true.

(** ** The grammar of tokens *)

(** The token [id["text"]]: a word, and between brackets and double quotes
    a text of word characters and spaces. *)
Definition enum_form (v : string) : Prop :=
  ∃ id e, v = id +:+ "[" +:+ dq +:+ e +:+ dq +:+ "]"
          ∧ is_bare_word id = true ∧ enum_text e = true.

(** A token that ends with a call [id(text)], the text free of line
    terminators; anything may come before the word. *)
Definition call_form (v : string) : Prop :=
  ∃ pre id a, v = pre +:+ id +:+ "(" +:+ a +:+ ")"
              ∧ is_bare_word id = true ∧ no_line_terminator a = true.

Definition well_formed_token (v : string) : Prop :=
  is_bare_word v = true ∨ enum_form v ∨ call_form v.

(** The store that parsing "Foo.baz(arg1, arg2)" leaves, from the empty
    store, and the one that parsing [Foo["enum value"]] leaves. *)
Definition foo_baz_heap : heap :=
  [mkSegment (Method "baz" ["arg1"; "arg2"]) (Ref 1) Undefined;
   mkSegment (Base "Foo") Null Undefined].

Definition enum_heap : heap :=
  [mkSegment (EnumValue "Foo" "enum value") Null Undefined].

(** The identifiers of the objects of a chain, read off the store. *)
Definition chain_identifiers (h : heap) (chain : list addr) : list string :=
  omap (λ a, (λ o, identifier (details o)) <$> h !! a) chain.

(** ** Rendered chains *)

(** Whether the leftmost token of a string is matched as a method call. *)
Definition leftmost_is_call (str : string) : bool :=
  match tokens_of str with
  | v :: _ => test methodRegex v
  | [] => false
  end.

(** The fragment [idlStringToHtml] wires from the nodes of the segments. *)
Definition fragment (nodes : list Node) : Node :=
  hyperHTML [""; ""] [HNodes nodes].

(** The node of a base, by the type found for it, and the [idlType] the
    base is left with: the type when it is truthy, its own identifier
    otherwise. *)
Definition base_html (t : value) (identifier : string) : Node :=
  if truthy t then var_html t identifier else xref_html identifier.

Definition base_type (t : value) (identifier : string) : value :=
  if truthy t then t else Str identifier.


(** A computation that leaves the details of every object of the store as
    they are, whether it returns or throws. *)
Definition keeps_details {A} (m : M A) : Prop :=
  ∀ h, details <$> (m h).2 = details <$> h.

(** The type the context gives a name: the type of the first [var] element
    whose trimmed text is the name, or [null]; [null] too without a context
    node. *)
Definition var_type (ctx : Context) (name : string) : value :=
  match ctx with
  | Within potentialVars =>
      match find (matches name) potentialVars with
      | Some matchedVar => Str (dataType matchedVar)
      | None => Null
      end
  | _ => Null
  end.

(** The text of the arguments of a rendered call. *)
Definition args_text (ctx : Context) (args : list string) : string :=
  String.concat ", " ((λ arg, arg_text (var_type ctx arg, arg)) <$> args).

Definition starts_with_space (s : string) : bool :=
  match s with
  | String c _ => is_space c
  | EmptyString => false
  end.

(** The store that parsing "Foo.baz( a , b)" leaves, from the empty store. *)
Definition padded_args_heap : heap :=
  [mkSegment (Method "baz" [" a "; "b"]) (Ref 1) Undefined;
   mkSegment (Base "Foo") Null Undefined].

(** ** Decimal numerals *)

(** Reading a decimal numeral, in the words of the specification: the
    digits are read from the left, each one adding itself to ten times
    what was read before. A numeral has a digit, only digits, and no zero
    in front of another digit. *)
Definition digit_value (c : ascii) : option Z :=
  if in_range 48 57 c then Some (Z.of_nat (code c) - 48)%Z else None.

Fixpoint digits_value (acc : Z) (s : string) : option Z :=
  match s with
  | EmptyString => Some acc
  | String c s' =>
      match digit_value c with
      | Some d => digits_value (10 * acc + d) s'
      | None => None
      end
  end.

Definition decimal_value (s : string) : option Z :=
  match s with
  | EmptyString => None
  | String c rest =>
      if Ascii.eqb c "0" && nonempty rest then None else digits_value 0 s
  end.

Fixpoint ends_with_space (s : string) : bool :=
  match s with
  | EmptyString => false
  | String c EmptyString => is_space c
  | String _ s' => ends_with_space s'
  end.

(** * Properties *)

(** ** Strings *)

Section StringFacts.

Lemma sapp_cons c (s t : string) : String c s +:+ t = String c (s +:+ t).
Proof. reflexivity. Qed.

Lemma sapp_nil_l (s : string) : "" +:+ s = s.
Proof. reflexivity. Qed.

Lemma sapp_nil_r (s : string) : s +:+ "" = s.
Proof. induction s as [|c s IH]; [done|]. by rewrite sapp_cons, IH. Qed.

Lemma sapp_assoc (s t u : string) : (s +:+ t) +:+ u = s +:+ t +:+ u.
Proof. induction s as [|c s IH]; [done|]. by rewrite !sapp_cons, IH. Qed.

Lemma slength_app (s t : string) :
  String.length (s +:+ t) = String.length s + String.length t.
Proof. induction s as [|c s IH]; [done|]. rewrite sapp_cons. simpl. lia. Qed.

Lemma take_string_app (s t : string) : take_string (String.length s) (s +:+ t) = s.
Proof.
  unfold take_string. induction s as [|c s IH].
  - by destruct t.
  - rewrite sapp_cons. cbn [String.length String.substring]. by rewrite IH.
Qed.

Lemma take_string_all (s : string) : take_string (String.length s) s = s.
Proof. rewrite <- (sapp_nil_r s) at 2. apply take_string_app. Qed.

Lemma sforallb_app p (s t : string) :
  string_forallb p (s +:+ t) = string_forallb p s && string_forallb p t.
Proof.
  induction s as [|c s IH]; [done|]. rewrite sapp_cons. simpl.
  by rewrite IH, andb_assoc.
Qed.

End StringFacts.

(** ** The matcher *)

Section RegExpFacts.

Lemma consumed_refl x : consumed x x "".
Proof. split; [done|]. simpl. lia. Qed.

Lemma consumed_trans x y z p q :
  consumed x y p → consumed y z q → consumed x z (p +:+ q).
Proof.
  intros [Hp Hi] [Hq Hj]. split.
  - by rewrite Hp, Hq, sapp_assoc.
  - rewrite slength_app. lia.
Qed.

Lemma step_inv cs x y :
  y ∈ step cs x →
  ∃ ch, consumed x y (String ch "") ∧ mem cs ch = true
        ∧ captures y = captures x.
Proof.
  unfold step. destruct (rest x) as [|ch s] eqn:E; [by rewrite elem_of_nil|].
  destruct (mem cs ch) eqn:Hm; [|by rewrite elem_of_nil].
  rewrite list_elem_of_singleton. intros ->. exists ch.
  split; [split; simpl; [done|lia]|done].
Qed.

Lemma repeat_greedy_inv cs s : ∀ e caps y,
  y ∈ repeat_greedy cs e caps s →
  ∃ p, consumed (State e s caps) y p ∧ string_forallb (mem cs) p = true
       ∧ captures y = caps.
Proof.
  induction s as [|ch s IH]; intros e caps y; simpl.
  - rewrite list_elem_of_singleton. intros ->. exists "".
    split; [apply consumed_refl|done].
  - destruct (mem cs ch) eqn:Hm.
    + rewrite elem_of_app, list_elem_of_singleton. intros [H| ->].
      * apply IH in H as (p & [Hp Hi] & Hall & Hc). exists (String ch p).
        repeat split; simpl in *; [by rewrite Hp|lia|by rewrite Hm|done].
      * exists "". split; [apply consumed_refl|done].
    + rewrite list_elem_of_singleton. intros ->. exists "".
      split; [apply consumed_refl|done].
Qed.

Lemma star_inv cs x y :
  y ∈ matcher (Star cs) x →
  ∃ p, consumed x y p ∧ string_forallb (mem cs) p = true
       ∧ captures y = captures x.
Proof. destruct x. apply repeat_greedy_inv. Qed.

Lemma plus_inv cs x y :
  y ∈ matcher (Plus cs) x →
  ∃ p, consumed x y p ∧ string_forallb (mem cs) p = true
       ∧ is_empty p = false ∧ captures y = captures x.
Proof.
  simpl. rewrite list_elem_of_bind.
  intros (z & Hy & (ch & Hz & Hm & Hc)%step_inv).
  destruct z as [e s caps].
  apply repeat_greedy_inv in Hy as (p & Hp & Hall & ->).
  exists (String ch "" +:+ p). split; [by eapply consumed_trans|].
  rewrite sapp_cons, sapp_nil_l. simpl in *. by rewrite Hm, Hall.
Qed.

Lemma group_inv r x y :
  y ∈ matcher (Group r) x → ∃ z, z ∈ matcher r x ∧ y = close_group x z.
Proof. simpl. rewrite list_elem_of_fmap. intros (z & -> & Hz). eauto. Qed.

Lemma cat_inv r1 r2 x y :
  y ∈ matcher (r1 ~> r2)%re x → ∃ z, z ∈ matcher r1 x ∧ y ∈ matcher r2 z.
Proof. simpl. rewrite list_elem_of_bind. intros (z & Hy & Hz). eauto. Qed.

Lemma lit_inv c x y :
  y ∈ matcher (Lit c) x →
  consumed x y (String c "") ∧ captures y = captures x.
Proof.
  intros (ch & H & Hm & Hc)%step_inv. simpl in Hm.
  apply Ascii.eqb_eq in Hm as ->. done.
Qed.

Lemma assert_start_inv x y :
  y ∈ matcher AssertStart x → y = x ∧ endIndex x = 0.
Proof.
  simpl. destruct (Nat.eqb_spec (endIndex x) 0); [|by rewrite elem_of_nil].
  by rewrite list_elem_of_singleton.
Qed.

Lemma assert_end_inv x y :
  y ∈ matcher AssertEnd x → y = x ∧ rest x = "".
Proof.
  simpl. destruct (rest x); simpl; [|by rewrite elem_of_nil].
  by rewrite list_elem_of_singleton.
Qed.

(** A group captures the text its pattern consumed. *)
Lemma close_group_consumed x z p :
  consumed x z p →
  consumed x (close_group x z) p
  ∧ captures (close_group x z) = captures z ++ [p].
Proof.
  intros [Hp Hi]. split; [done|]. unfold close_group. simpl.
  replace (endIndex z - endIndex x) with (String.length p) by lia.
  by rewrite Hp, take_string_app.
Qed.

(** Every group of a pattern takes part in every match of it. *)
Lemma matcher_captures r : ∀ x y,
  y ∈ matcher r x → length (captures y) = length (captures x) + groups r.
Proof.
  induction r as [cs|cs|cs|r IH|r1 IH1 r2 IH2| |]; intros x y.
  - intros (ch & _ & _ & ->)%step_inv. simpl. lia.
  - intros (p & _ & _ & ->)%star_inv. simpl. lia.
  - intros (p & _ & _ & _ & ->)%plus_inv. simpl. lia.
  - intros (z & Hz%IH & ->)%group_inv. simpl. rewrite length_app. simpl. lia.
  - intros (z & Hz%IH1 & Hy%IH2)%cat_inv. simpl. lia.
  - intros [-> _]%assert_start_inv. simpl. lia.
  - intros [-> _]%assert_end_inv. simpl. lia.
Qed.

(** A successful [exec] found a match at some index of the string. *)
Lemma exec_from_inv r : ∀ s i arr,
  exec_from r i s = Some arr →
  ∃ p s' y, s = p +:+ s'
            ∧ head (matcher r (State (i + String.length p) s' [])) = Some y
            ∧ arr = match_array (i + String.length p) s' y.
Proof.
  induction s as [|ch s IH]; intros i arr; simpl;
    unfold match_at; destruct (head _) as [y|] eqn:Hy; try discriminate.
  - intros [= <-]. exists "", "", y. by rewrite Nat.add_0_r.
  - intros [= <-]. exists "", (String ch s), y. by rewrite Nat.add_0_r.
  - intros (p & s' & y & -> & Hy' & ->)%IH. exists (String ch p), s', y.
    simpl. by rewrite <- Nat.add_succ_comm.
Qed.

Lemma exec_length r s arr : exec r s = Some arr → length arr = S (groups r).
Proof.
  intros (p & s' & y & _ & Hy & ->)%exec_from_inv.
  apply head_Some_elem_of, matcher_captures in Hy. simpl in *. lia.
Qed.

Lemma test_true r s : test r s = true ↔ ∃ arr, exec r s = Some arr.
Proof. unfold test. rewrite bool_decide_eq_true. reflexivity. Qed.

Lemma test_false r s : test r s = false ↔ exec r s = None.
Proof.
  unfold test. rewrite bool_decide_eq_false, <- eq_None_not_Some. reflexivity.
Qed.

(** The destructuring of a match of a pattern with two groups finds all its
    elements. *)
Lemma exec_two_groups r s arr :
  groups r = 2 → exec r s = Some arr → ∃ w a b, arr = [w; a; b].
Proof.
  intros Hg Hl%exec_length. rewrite Hg in Hl.
  destruct arr as [|w [|a [|b [|? ?]]]]; simplify_eq/=. eauto.
Qed.

Lemma group_plus_inv cs x y :
  y ∈ matcher (Group (Plus cs)) x →
  ∃ p, consumed x y p ∧ string_forallb (mem cs) p = true
       ∧ is_empty p = false ∧ captures y = captures x ++ [p].
Proof.
  intros (z & (p & Hp & Hall & Hne & Hc)%plus_inv & ->)%group_inv.
  apply close_group_consumed in Hp as [Hp Hcap]. exists p.
  by rewrite Hcap, Hc.
Qed.

Lemma group_star_inv cs x y :
  y ∈ matcher (Group (Star cs)) x →
  ∃ p, consumed x y p ∧ string_forallb (mem cs) p = true
       ∧ captures y = captures x ++ [p].
Proof.
  intros (z & (p & Hp & Hall & Hc)%star_inv & ->)%group_inv.
  apply close_group_consumed in Hp as [Hp Hcap]. exists p.
  by rewrite Hcap, Hc.
Qed.

(** The longest run comes first: on a string made of characters of the
    class, the first way to repeat the class takes all of it. *)
Lemma repeat_greedy_all cs s : ∀ e caps,
  string_forallb (mem cs) s = true →
  ∃ l, repeat_greedy cs e caps s = State (e + String.length s) "" caps :: l.
Proof.
  induction s as [|ch s IH]; intros e caps; simpl.
  - intros _. exists []. by rewrite Nat.add_0_r.
  - intros [-> Hs]%andb_true_iff.
    destruct (IH (S e) caps Hs) as [l ->]. eexists.
    by rewrite <- Nat.add_succ_comm.
Qed.

Lemma step_cons cs e c (s : string) caps :
  step cs (State e (String c s) caps)
  = if mem cs c then [State (S e) s caps] else [].
Proof. reflexivity. Qed.

Lemma exec_from_match r i s y :
  match_at r i s = Some y → exec_from r i s = Some (match_array i s y).
Proof. intros Hy. destruct s; simpl; by rewrite Hy. Qed.

Lemma step_lit c e s caps :
  step (Char c) (State e (String c s) caps) = [State (S e) s caps].
Proof. rewrite step_cons. simpl. by rewrite Ascii.eqb_refl. Qed.

Lemma step_rest_nil cs y : rest y = "" → step cs y = [].
Proof. unfold step. by intros ->. Qed.

Lemma bind_singleton {A B} (x : A) (f : A → list B) : ([x] ≫= f) = f x.
Proof. simpl. apply app_nil_r. Qed.

Lemma bind_cons {A B} (x : A) (l : list A) (f : A → list B) :
  ((x :: l) ≫= f) = f x ++ (l ≫= f).
Proof. reflexivity. Qed.

(** The first way to repeat a class stops where the class stops. *)
Lemma repeat_greedy_run cs p : ∀ e caps s,
  string_forallb (mem cs) p = true →
  match s with String c _ => mem cs c = false | EmptyString => True end →
  ∃ l, repeat_greedy cs e caps (p +:+ s) = State (e + String.length p) s caps :: l.
Proof.
  induction p as [|ch p IH]; intros e caps s Hp Hs.
  - rewrite sapp_nil_l, Nat.add_0_r. destruct s as [|c s]; simpl.
    + by exists [].
    + rewrite Hs. by exists [].
  - simpl in Hp. apply andb_true_iff in Hp as [Hch Hp].
    rewrite sapp_cons. simpl. rewrite Hch.
    destruct (IH (S e) caps s Hp Hs) as [l ->]. eexists.
    by rewrite <- Nat.add_succ_comm.
Qed.

(** On a text of the class, the first way to repeat it takes all the text
    and the second way leaves the last character. *)
Lemma repeat_greedy_last cs p c : ∀ e caps,
  string_forallb (mem cs) p = true → mem cs c = true →
  ∃ l, repeat_greedy cs e caps (p +:+ String c "")
       = State (S (e + String.length p)) "" caps
         :: State (e + String.length p) (String c "") caps :: l.
Proof.
  induction p as [|ch p IH]; intros e caps Hp Hc.
  - rewrite sapp_nil_l, Nat.add_0_r. simpl. rewrite Hc. by exists [].
  - simpl in Hp. apply andb_true_iff in Hp as [Hch Hp].
    rewrite sapp_cons. simpl. rewrite Hch.
    destruct (IH (S e) caps Hp Hc) as [l ->]. eexists.
    by rewrite <- Nat.add_succ_comm.
Qed.

End RegExpFacts.

(** ** The four patterns *)

Section Patterns.

(** The internal slot pattern asks for a bracket after the end of the
    input: it matches nothing. *)
Lemma slotRegex_no_match x : matcher slotRegex x = [].
Proof.
  apply elem_of_nil_inv. unfold slotRegex.
  intros y (z & [-> Hend]%assert_end_inv & Hy)%cat_inv.
  apply cat_inv in Hy as (w & [[Hr _] _]%lit_inv & _).
  rewrite Hend in Hr. discriminate.
Qed.

Lemma slotRegex_exec s : exec slotRegex s = None.
Proof.
  destruct (exec slotRegex s) as [arr|] eqn:E; [|done].
  apply exec_from_inv in E as (p & s' & y & _ & Hy & _).
  by rewrite slotRegex_no_match in Hy.
Qed.

Lemma slotRegex_test s : test slotRegex s = false.
Proof. apply test_false, slotRegex_exec. Qed.

(** A match of the method pattern: the rest of the input is a word, an
    opening parenthesis, a text free of line terminators and a closing
    parenthesis, and the groups are the word and the text. *)
Lemma methodRegex_inv x y :
  y ∈ matcher methodRegex x →
  ∃ id a, rest x = id +:+ "(" +:+ a +:+ ")"
          ∧ is_bare_word id = true ∧ no_line_terminator a = true
          ∧ captures y = captures x ++ [id; a]
          ∧ endIndex y = endIndex x + String.length (rest x).
Proof.
  unfold methodRegex.
  intros (x1 & (id & [R1 E1] & W1 & N1 & C1)%group_plus_inv & Hy)%cat_inv.
  apply cat_inv in Hy as (x2 & [[R2 E2] C2]%lit_inv & Hy).
  apply cat_inv in Hy as (x3 & (a & [R3 E3] & W3 & C3)%group_star_inv & Hy).
  apply cat_inv in Hy as (x4 & [[R4 E4] C4]%lit_inv & [-> R5]%assert_end_inv).
  exists id, a. unfold is_bare_word, nonempty.
  rewrite R1, R2, R3, R4, R5, C4, C3, C2, C1, E4, E3, E2, E1, N1.
  rewrite !slength_app, <- !(assoc_L (++)). simpl.
  split_and!; [done|exact W1|exact W3|done|lia].
Qed.

Lemma exec_methodRegex v arr :
  exec methodRegex v = Some arr →
  ∃ pre id a, v = pre +:+ id +:+ "(" +:+ a +:+ ")"
              ∧ is_bare_word id = true ∧ no_line_terminator a = true
              ∧ arr = [id +:+ "(" +:+ a +:+ ")"; id; a].
Proof.
  intros (pre & s' & y & -> & Hy & ->)%exec_from_inv.
  apply head_Some_elem_of, methodRegex_inv in Hy
    as (id & a & Hr & Hid & Ha & Hc & He). simpl in *.
  exists pre, id, a. split_and!; [by rewrite Hr|done..|].
  unfold match_array. rewrite Hc, He. f_equal.
  replace (_ + _ - _) with (String.length s') by lia.
  by rewrite take_string_all.
Qed.

(** A word, an opening parenthesis, a text free of line terminators and a
    closing parenthesis: the method pattern matches the token from its
    start, with the word and the text for groups. *)
Lemma exec_methodRegex_call id a :
  is_bare_word id = true → no_line_terminator a = true →
  exec methodRegex (id +:+ "(" +:+ a +:+ ")")
  = Some [id +:+ "(" +:+ a +:+ ")"; id; a].
Proof.
  intros [Hne Hw]%andb_true_iff Ha. destruct id as [|ch id]; [done|].
  simpl in Hw. apply andb_true_iff in Hw as [Hch Hid].
  destruct (repeat_greedy_run Word id 1 [] ("(" +:+ a +:+ ")") Hid eq_refl)
    as [l1 Hl1].
  destruct (repeat_greedy_last Dot a ")" (S (S (String.length id)))
              [String ch id] Ha eq_refl) as [l2 Hl2].
  set (input := String ch (id +:+ "(" +:+ a +:+ ")")).
  set (x1 := State (S (String.length id)) ("(" +:+ a +:+ ")") [String ch id]).
  set (x2 := State (S (S (String.length id))) (a +:+ ")") [String ch id]).
  set (e3 := S (S (String.length id)) + String.length a).
  assert (close_group (State 0 input [])
            (State (1 + String.length id) ("(" +:+ a +:+ ")") []) = x1) as G1.
  { unfold close_group, x1, input. cbn [endIndex captures rest app]. do 2 f_equal.
    replace (1 + String.length id - 0) with (String.length (String ch id))
      by (simpl; lia).
    by rewrite <- sapp_cons, take_string_app. }
  assert (close_group x2 (State e3 ")" [String ch id])
          = State e3 ")" [String ch id; a]) as G2.
  { unfold close_group, x2, e3. cbn [endIndex captures rest app]. do 3 f_equal.
    replace (_ - _) with (String.length a) by lia. apply take_string_app. }
  unfold exec. rewrite sapp_cons. fold input.
  rewrite (exec_from_match _ _ _ (State (S e3) "" [String ch id; a])).
  { unfold match_array. cbn [endIndex captures]. do 2 f_equal.
    rewrite <- (take_string_all input) at 2. f_equal.
    unfold e3, input. simpl. rewrite !slength_app. simpl. lia. }
  unfold match_at, methodRegex, Lit. cbn [matcher].
  change (step Word (State 0 input []))
    with (step Word (State 0 (String ch (id +:+ "(" +:+ a +:+ ")")) [])).
  rewrite step_cons. cbn [mem]. rewrite Hch, bind_singleton.
  cbn [endIndex captures rest].
  rewrite Hl1, fmap_cons, bind_cons, G1.
  unfold x1 at 1. change ("(" +:+ a +:+ ")") with (String "(" (a +:+ ")")).
  rewrite step_lit, bind_singleton.
  fold x2. unfold x2 at 2 3 4. cbn [endIndex captures rest].
  rewrite Hl2, !fmap_cons, !bind_cons. fold e3. rewrite G2.
  rewrite (step_rest_nil _ (close_group x2 _)) by done.
  rewrite step_lit, bind_singleton.
  by cbn [rest is_empty mbind list_bind app head].
Qed.

(** A match of the attribute pattern starts at index 0 and takes the
    whole input, a bare word. *)
Lemma attributeRegex_inv x y :
  y ∈ matcher attributeRegex x →
  endIndex x = 0 ∧ is_bare_word (rest x) = true
  ∧ captures y = captures x ++ [rest x]
  ∧ endIndex y = String.length (rest x).
Proof.
  unfold attributeRegex.
  intros (x0 & [-> E0]%assert_start_inv & Hy)%cat_inv.
  apply cat_inv in Hy
    as (x1 & (id & [R1 E1] & W1 & N1 & C1)%group_plus_inv
           & [-> R2]%assert_end_inv).
  rewrite R2, sapp_nil_r in R1. subst id. unfold is_bare_word, nonempty.
  rewrite N1, C1, E1, E0. split_and!; [done|exact W1|done..].
Qed.

Lemma exec_attributeRegex v arr :
  exec attributeRegex v = Some arr → is_bare_word v = true ∧ arr = [v; v].
Proof.
  intros (pre & s' & y & -> & Hy & ->)%exec_from_inv.
  apply head_Some_elem_of, attributeRegex_inv in Hy as (E0 & Hw & Hc & He).
  simpl in *. destruct pre; [|done]. rewrite sapp_nil_l. split; [done|].
  unfold match_array. simpl. by rewrite Hc, He, Nat.sub_0_r, take_string_all.
Qed.

Lemma exec_attributeRegex_bare v :
  is_bare_word v = true → exec attributeRegex v = Some [v; v].
Proof.
  intros [Hne Hw]%andb_true_iff. destruct v as [|ch s]; [done|].
  simpl in Hw. apply andb_true_iff in Hw as [Hch Hs].
  destruct (repeat_greedy_all Word s 1 [] Hs) as [l Hl].
  unfold exec, exec_from, match_at. simpl. unfold step. simpl.
  rewrite Hch. simpl. rewrite Hl. simpl.
  unfold match_array, close_group. simpl.
  change (S (String.length s)) with (String.length (String ch s)).
  by rewrite !take_string_all.
Qed.

Lemma test_attributeRegex v : test attributeRegex v = is_bare_word v.
Proof.
  destruct (is_bare_word v) eqn:Hw.
  - apply test_true. eauto using exec_attributeRegex_bare.
  - apply test_false. destruct (exec attributeRegex v) eqn:E; [|done].
    apply exec_attributeRegex in E as [? _]. congruence.
Qed.

(** A match of the enum pattern starts at index 0 and takes the whole
    input: a word, and between brackets and double quotes a text of word
    characters and spaces. *)
Lemma enumRegex_inv x y :
  y ∈ matcher enumRegex x →
  endIndex x = 0
  ∧ ∃ id e, rest x = id +:+ "[" +:+ dq +:+ e +:+ dq +:+ "]"
            ∧ is_bare_word id = true ∧ enum_text e = true
            ∧ captures y = captures x ++ [id; e]
            ∧ endIndex y = String.length (rest x).
Proof.
  unfold enumRegex.
  intros (x0 & [-> E0]%assert_start_inv & Hy)%cat_inv. split; [done|].
  apply cat_inv in Hy as (x1 & (id & [R1 E1] & W1 & N1 & C1)%group_plus_inv & Hy).
  apply cat_inv in Hy as (x2 & [[R2 E2] C2]%lit_inv & Hy).
  apply cat_inv in Hy as (x3 & [[R3 E3] C3]%lit_inv & Hy).
  apply cat_inv in Hy as (x4 & (e & [R4 E4] & W4 & N4 & C4)%group_plus_inv & Hy).
  apply cat_inv in Hy as (x5 & [[R5 E5] C5]%lit_inv & Hy).
  apply cat_inv in Hy as (x6 & [[R6 E6] C6]%lit_inv & [-> R7]%assert_end_inv).
  exists id, e. unfold is_bare_word, enum_text, nonempty.
  rewrite R1, R2, R3, R4, R5, R6, R7, C6, C5, C4, C3, C2, C1,
    E6, E5, E4, E3, E2, E1, E0, N1, N4.
  rewrite !slength_app, <- !(assoc_L (++)). simpl.
  split_and!; [done|exact W1|exact W4|done|lia].
Qed.

Lemma exec_enumRegex v arr :
  exec enumRegex v = Some arr →
  ∃ id e, v = id +:+ "[" +:+ dq +:+ e +:+ dq +:+ "]"
          ∧ is_bare_word id = true ∧ enum_text e = true
          ∧ arr = [v; id; e].
Proof.
  intros (pre & s' & y & -> & Hy & ->)%exec_from_inv.
  apply head_Some_elem_of, enumRegex_inv in Hy
    as (E0 & id & e & Hr & Hid & He & Hc & Hi).
  simpl in *. destruct pre; [|done]. rewrite sapp_nil_l.
  exists id, e. split_and!; [done..|].
  unfold match_array. simpl. by rewrite Hc, Hi, Nat.sub_0_r, take_string_all.
Qed.

(** A bare word holds no parenthesis and no bracket, so neither the
    method pattern nor the enum pattern matches it. *)
Lemma bare_word_not_method v :
  is_bare_word v = true → test methodRegex v = false.
Proof.
  intros [_ Hw]%andb_true_iff. apply test_false.
  destruct (exec methodRegex v) as [arr|] eqn:E; [|done].
  apply exec_methodRegex in E as (pre & id & a & -> & _).
  rewrite !sforallb_app in Hw. simpl in Hw.
  by rewrite !andb_false_r in Hw.
Qed.

Lemma bare_word_not_enum v :
  is_bare_word v = true → test enumRegex v = false.
Proof.
  intros [_ Hw]%andb_true_iff. apply test_false.
  destruct (exec enumRegex v) as [arr|] eqn:E; [|done].
  apply exec_enumRegex in E as (id & e & -> & _).
  rewrite !sforallb_app in Hw. simpl in Hw.
  by rewrite !andb_false_r in Hw.
Qed.

End Patterns.

(** ** Splitting *)

Section SplitFacts.

(** The tokens of a string are one more than its separators, they hold no
    separator, and joined by the separator they give the string back. *)
Lemma split_char_length sep s :
  length (split_char sep s) = S (occurrences sep s).
Proof.
  induction s as [|c s IH]; [done|]. simpl.
  destruct (Ascii.eqb c sep); simpl; [by rewrite IH|].
  destruct (split_char sep s); simpl in *; lia.
Qed.

Lemma split_char_no_separator sep s :
  Forall (λ v, occurrences sep v = 0) (split_char sep s).
Proof.
  induction s as [|c s IH]; simpl; [by constructor|].
  destruct (Ascii.eqb c sep) eqn:Hc; [by constructor|].
  destruct (split_char sep s) as [|v vs]; simpl.
  - constructor; [|done]. simpl. by rewrite Hc.
  - inversion_clear IH. constructor; [|done]. simpl. by rewrite Hc.
Qed.

Lemma split_char_concat sep s :
  String.concat (String sep "") (split_char sep s) = s.
Proof.
  induction s as [|c s IH]; [done|]. simpl.
  destruct (Ascii.eqb_spec c sep) as [->|Hc].
  - pose proof (split_char_length sep s) as Hl.
    destruct (split_char sep s) as [|v vs]; [done|].
    cbn [String.concat]. rewrite sapp_nil_l. simpl in IH. by rewrite IH.
  - pose proof (split_char_length sep s) as Hl.
    destruct (split_char sep s) as [|v vs]; [done|]. simpl in *.
    destruct vs; simpl in *; by rewrite <- IH.
Qed.

Lemma trimStart_length s : String.length (trimStart s) ≤ String.length s.
Proof.
  induction s as [|c s IH]; simpl; [done|].
  destruct (is_space c); simpl; lia.
Qed.

(** The white space after a comma is passed over. *)
Lemma split_on_commas_separator s :
  split_on_commas true "" s = split_on_commas false "" (trimStart s).
Proof.
  induction s as [|c s IH]; simpl; [done|].
  by destruct (is_space c) eqn:Hc; simpl.
Qed.

(** The first way to repeat white space takes the whole run. *)
Lemma repeat_greedy_space s : ∀ e caps,
  ∃ e', head (repeat_greedy Space e caps s) = Some (State e' (trimStart s) caps)
        ∧ e ≤ e'.
Proof.
  induction s as [|c s IH]; intros e caps; simpl.
  - by exists e.
  - destruct (is_space c).
    + destruct (IH (S e) caps) as (e' & He' & Hle).
      apply head_Some in He' as [l ->]. exists e'. split; [done|lia].
    + by exists e.
Qed.

(** The separator matches at a comma, up to the end of the white space
    after it, and nowhere else. *)
Lemma match_at_separator q c s :
  if Ascii.eqb c ","
  then ∃ e, match_at argSeparator q (String c s)
            = Some (State e (trimStart s) []) ∧ q < e
  else match_at argSeparator q (String c s) = None.
Proof.
  unfold match_at, argSeparator, Lit. cbn [matcher].
  rewrite step_cons. cbn [mem].
  rewrite (Ascii.eqb_sym "," c). destruct (Ascii.eqb c ","); [|done]. simpl.
  destruct (repeat_greedy_space s (S q) []) as (e & He & Hle).
  apply head_Some in He as [l ->]. exists e. split; [done|lia].
Qed.

Lemma split_loop_args : ∀ fuel input q piece,
  String.length input < fuel →
  split_loop fuel argSeparator q piece input
  = split_on_commas false piece input.
Proof.
  induction fuel as [|fuel IH]; intros input q piece Hfuel; [lia|].
  destruct input as [|c s]; [done|]. simpl in Hfuel.
  cbn [split_loop split_on_commas andb].
  pose proof (match_at_separator q c s) as Hm.
  destruct (Ascii.eqb c ",").
  - destruct Hm as (e & -> & Hlt). cbn [endIndex captures rest].
    destruct (Nat.eqb_spec e (q - String.length piece)); [lia|].
    rewrite IH by (pose proof (trimStart_length s); lia).
    by rewrite split_on_commas_separator.
  - rewrite Hm. apply IH. lia.
Qed.

(** The split of the source agrees with the split of the
    specification. *)
Theorem split_regex_args s :
  split_regex argSeparator s = split_args_spec s.
Proof.
  destruct s as [|c s]; [done|]. unfold split_regex.
  apply split_loop_args. simpl. lia.
Qed.

End SplitFacts.

(** ** The parser *)

Section ParserFacts.

Lemma captured2_test r v :
  groups r = 2 →
  if test r v then is_Some (captured2 (exec r v))
  else captured2 (exec r v) = None.
Proof.
  intros Hg. destruct (test r v) eqn:Ht.
  - apply test_true in Ht as [arr Harr].
    destruct (exec_two_groups _ _ _ Hg Harr) as (w & a & b & ->).
    rewrite Harr. by eexists.
  - apply test_false in Ht. by rewrite Ht.
Qed.

(** One pass of the loop. The branches that would fail to destructure a
    match are dead: a pattern that matches fills all its groups. *)
Lemma parse_loop_step v tokens count results h :
  parse_loop (v :: tokens) count results h =
  match classify v (length tokens) with
  | Some d =>
      parse_loop tokens (count - 1)%Z (results ++ [length h]) (h ++ [fresh d])
  | None => (Throw (SyntaxError (syntax_error_message v count)), h)
  end.
Proof.
  unfold classify. simpl. unfold match_.
  rewrite slotRegex_test, slotRegex_exec.
  pose proof (captured2_test methodRegex v eq_refl) as Hm.
  pose proof (captured2_test enumRegex v eq_refl) as He.
  destruct (test methodRegex v).
  { destruct Hm as [[i a] ->]. done. }
  rewrite Hm. destruct (test enumRegex v).
  { destruct He as [[i e] ->]. done. }
  rewrite He. destruct (test attributeRegex v) eqn:Ha; simpl.
  - apply test_true in Ha as [arr Harr].
    destruct (exec_attributeRegex _ _ Harr) as [_ ->]. rewrite Harr.
    by destruct (length tokens).
  - unfold throw. by rewrite Z.sub_add.
Qed.

Lemma classify_accepts v n : is_Some (classify v n) ↔ accepts v = true.
Proof.
  unfold classify, accepts. rewrite slotRegex_test, slotRegex_exec.
  pose proof (captured2_test methodRegex v eq_refl) as Hm.
  pose proof (captured2_test enumRegex v eq_refl) as He.
  destruct (test methodRegex v).
  { destruct Hm as [[i a] ->]. by split. }
  rewrite Hm. destruct (test enumRegex v).
  { destruct He as [[i e] ->]. by split. }
  rewrite He. destruct (test attributeRegex v); simpl; [by split|].
  split; [by intros [? ?]|done].
Qed.

Lemma classify_None v n : classify v n = None ↔ accepts v = false.
Proof.
  rewrite eq_None_not_Some, classify_accepts. by destruct (accepts v).
Qed.

Lemma parse_loop_spec pending : ∀ results h,
  parse_loop pending (Z.of_nat (length pending)) results h =
  let ds := classified pending in
  match rejected pending with
  | None =>
      (Return (results ++ seq (length h) (length ds)), h ++ (fresh <$> ds))
  | Some (v, pos) =>
      (Throw (SyntaxError (syntax_error_message v (Z.of_nat pos))),
       h ++ (fresh <$> ds))
  end.
Proof.
  induction pending as [|v tokens IH]; intros results h.
  - simpl. by rewrite !app_nil_r.
  - rewrite parse_loop_step. simpl classified. simpl rejected.
    destruct (classify v (length tokens)) as [d|]; simpl.
    + replace (Z.of_nat (S (length tokens)) - 1)%Z
        with (Z.of_nat (length tokens)) by lia.
      rewrite IH. simpl. rewrite length_app, Nat.add_1_r.
      destruct (rejected tokens) as [[w pos]|];
        by rewrite <- !(assoc_L (++)).
    + by rewrite app_nil_r.
Qed.

Lemma rejected_None_length pending :
  rejected pending = None → length (classified pending) = length pending.
Proof.
  induction pending as [|v tokens IH]; [done|]. simpl.
  destruct (classify v (length tokens)); [|done]. simpl. auto.
Qed.

Lemma next_or_null_seq b n j : next_or_null (seq b n) j = parent_link b n j.
Proof.
  unfold next_or_null, parent_link. destruct (Nat.ltb_spec (j + 1) n).
  - rewrite lookup_seq_lt by done. f_equal. lia.
  - by rewrite lookup_seq_ge.
Qed.

Lemma link_from_spec h (l : list addr) todo : ∀ i before,
  length before = i →
  link_from (seq (length h + i) (length todo)) i l (h ++ before ++ todo) =
  (Return tt,
   h ++ before ++ imap (λ j, set_parent (next_or_null l (i + j))) todo).
Proof.
  induction todo as [|o todo IH]; intros i before Hi; [done|].
  simpl. unfold bind, modify.
  rewrite lookup_app_r, lookup_app_r by (rewrite ?length_app; lia).
  replace (length h + i - length h - length before) with 0 by lia. simpl.
  subst i. rewrite insert_app_r.
  rewrite insert_app_r_alt, Nat.sub_diag by lia. simpl.
  rewrite (cons_middle _ before todo), (assoc_L (++) before).
  replace (S (length h + length before))
    with (length h + S (length before)) by lia.
  rewrite IH by (rewrite length_app; simpl; lia).
  rewrite Nat.add_0_r, <- (assoc_L (++) before). simpl. do 4 f_equal.
  apply imap_ext. intros j x _. simpl. do 2 f_equal. lia.
Qed.

(** [parseInlineIDL] in closed form, on any store: either every token is
    matched, and the chain is the objects just allocated, linked and read
    from the last allocated to the first; or the error names the first
    token popped that no pattern matches. *)
Theorem parseInlineIDL_spec str h :
  let pending := reverse (split_char "." str) in
  let ds := classified pending in
  parseInlineIDL str h =
  match rejected pending with
  | None =>
      (Return (reverse (seq (length h) (length ds))), h ++ linked (length h) ds)
  | Some (v, pos) =>
      (Throw (SyntaxError (syntax_error_message v (Z.of_nat pos))),
       h ++ (fresh <$> ds))
  end.
Proof.
  intros pending ds. unfold parseInlineIDL, bind.
  rewrite <- (length_reverse (split_char _ _)). fold pending.
  rewrite parse_loop_spec. fold ds. simpl.
  destruct (rejected pending) as [[v pos]|]; [done|].
  pose proof (link_from_spec h (seq (length h) (length ds)) (fresh <$> ds)
                0 [] eq_refl) as Hl.
  rewrite length_fmap, Nat.add_0_r in Hl. simpl in Hl. rewrite Hl.
  unfold ret, linked. do 2 f_equal. rewrite imap_fmap. apply imap_ext.
  intros j d _. simpl. by rewrite next_or_null_seq.
Qed.

Lemma classified_lookup pending :
  rejected pending = None →
  ∀ j v, pending !! j = Some v →
         ∃ d, classify v (length pending - S j) = Some d
              ∧ classified pending !! j = Some d.
Proof.
  induction pending as [|w tokens IH]; intros Hr j v Hj; [done|].
  simpl in *. destruct (classify w (length tokens)) as [d|] eqn:E; [|done].
  destruct j as [|j]; simplify_eq/=.
  - exists d. by rewrite Nat.sub_0_r.
  - by apply IH.
Qed.

(** A chain that [parseInlineIDL] returns, read off the store: it has one
    object per token, in the order of the tokens; the object of the token
    at index [i] holds what the loop pushes for that token with [i] tokens
    left, and its parent is its left neighbour. *)
Lemma parse_return str h chain h' :
  parseInlineIDL str h = (Return chain, h') →
  let tokens := split_char "." str in
  length chain = length tokens
  ∧ chain = reverse (seq (length h) (length tokens))
  ∧ length h' = length h + length tokens
  ∧ ∀ i v, tokens !! i = Some v →
      ∃ d a, classify v i = Some d ∧ chain !! i = Some a
             ∧ h' !! a = Some (mkSegment d (left_neighbour chain i) Undefined).
Proof.
  intros Hp tokens. rewrite parseInlineIDL_spec in Hp.
  destruct (rejected _) as [[? ?]|] eqn:Hr; [done|].
  pose proof (rejected_None_length _ Hr) as Hlen.
  rewrite length_reverse in Hlen. fold tokens in Hlen, Hr, Hp.
  set (n := length tokens) in *. rewrite Hlen in Hp.
  injection Hp as <- <-.
  split_and!.
  - by rewrite length_reverse, length_seq.
  - done.
  - unfold linked. rewrite length_app, length_imap. lia.
  - intros i v Hi. pose proof (lookup_lt_Some _ _ _ Hi) as Hlt. fold n in Hlt.
    assert (reverse tokens !! (n - S i) = Some v) as Hj.
    { rewrite reverse_lookup by (fold n; lia). fold n.
      by replace (n - S (n - S i)) with i by lia. }
    destruct (classified_lookup _ Hr _ _ Hj) as (d & Hd & Hcd).
    rewrite length_reverse in Hd. fold n in Hd.
    replace (n - S (n - S i)) with i in Hd by lia.
    exists d, (length h + (n - S i)). split_and!; [done| |].
    + rewrite reverse_lookup by (rewrite length_seq; lia).
      rewrite length_seq. by apply lookup_seq_lt; lia.
    + rewrite lookup_app_r by lia.
      replace (length h + (n - S i) - length h) with (n - S i) by lia.
      unfold linked. rewrite list_lookup_imap, Hcd. simpl. do 2 f_equal.
      rewrite Hlen. unfold parent_link, left_neighbour.
      destruct i as [|i].
      * destruct (Nat.ltb_spec (n - 1 + 1) n); [lia|done].
      * destruct (Nat.ltb_spec (n - S (S i) + 1) n); [|lia].
        rewrite reverse_lookup by (rewrite length_seq; lia).
        rewrite length_seq, lookup_seq_lt by lia. f_equal. lia.
Qed.

(** A bare word is an attribute while tokens are left, and the base when
    none is. *)
Lemma classify_bare_word v i :
  is_bare_word v = true →
  classify v i = Some (if (i =? 0)%nat then Base v else Attribute v).
Proof.
  intros Hw. unfold classify.
  pose proof (bare_word_not_method _ Hw) as ->%test_false.
  pose proof (bare_word_not_enum _ Hw) as ->%test_false.
  by rewrite slotRegex_exec, test_attributeRegex, Hw.
Qed.

(** Any other token that is matched is a method call or an enum value. *)
Lemma classify_not_bare_word v i d :
  is_bare_word v = false → classify v i = Some d → is_base d = false.
Proof.
  intros Hw. unfold classify.
  rewrite slotRegex_exec, test_attributeRegex, Hw. simpl.
  destruct (captured2 (exec methodRegex v)) as [[? ?]|]; [by intros [= <-]|].
  destruct (captured2 (exec enumRegex v)) as [[? ?]|]; [by intros [= <-]|done].
Qed.

Lemma classify_base v i d :
  classify v i = Some d →
  is_base d = true ↔ i = 0 ∧ is_bare_word v = true.
Proof.
  destruct (is_bare_word v) eqn:Hw.
  - rewrite classify_bare_word by done. intros [= <-].
    destruct (Nat.eqb_spec i 0); simpl; (split; [done|by intros [? ?]]).
  - intros ->%classify_not_bare_word; [|done].
    split; [done|by intros [? ?]].
Qed.

Lemma rejected_None pending :
  rejected pending = None ↔ Forall (λ v, accepts v = true) pending.
Proof.
  induction pending as [|v tokens IH]; simpl; [by split|].
  rewrite Forall_cons, <- IH, <- (classify_accepts v (length tokens)).
  destruct (classify v (length tokens)) as [d|].
  - split; [intros ?; split; [by eexists|done]|by intros [_ ?]].
  - split; [done|]. by intros [[? ?] _].
Qed.

(** The token an error names: no pattern matches it, every token popped
    before it is matched, and the position named is its index plus one,
    counted in the order the string has the tokens. *)
Lemma rejected_Some tokens v pos :
  rejected (reverse tokens) = Some (v, pos) →
  ∃ k, pos = S k ∧ tokens !! k = Some v ∧ accepts v = false
       ∧ ∀ k' w, k < k' → tokens !! k' = Some w → accepts w = true.
Proof.
  induction tokens as [|w tokens IH] using rev_ind; [done|].
  rewrite reverse_snoc. simpl. rewrite length_reverse.
  destruct (classify w (length tokens)) as [d|] eqn:E.
  - intros (k & -> & Hk & Hv & Hright)%IH. exists k. split_and!; [done| |done|].
    + by apply lookup_app_l_Some.
    + intros k' w' Hlt [[_ Hw']|[_ <-]]%lookup_snoc_Some; [by eauto|].
      apply (classify_accepts _ (length tokens)). rewrite E. by eexists.
  - intros [= <- <-]. exists (length tokens). split_and!; [done| | |].
    + by rewrite lookup_app_r, Nat.sub_diag.
    + by apply (classify_None _ (length tokens)).
    + intros k' w' Hlt Hw'%lookup_lt_Some. rewrite length_app in Hw'.
      simpl in Hw'. lia.
Qed.

End ParserFacts.

(** ** The renderer *)

Section RendererFacts.

Variable dfns : list Element.
Variable ctx : Context.

Lemma bind_run {A B} (m : M A) (k : A → M B) h :
  bind m k h = match m h with
               | (Return a, h') => k a h'
               | (Throw e, h') => (Throw e, h')
               end.
Proof. reflexivity. Qed.

Lemma lookup_middle (pre : heap) o suffix :
  (pre ++ o :: suffix) !! length pre = Some o.
Proof. by apply list_lookup_middle. Qed.

Lemma lookup_middle_next (pre : heap) o p suffix :
  (pre ++ o :: p :: suffix) !! S (length pre) = Some p.
Proof.
  rewrite cons_middle, (assoc_L (++)).
  apply list_lookup_middle. rewrite length_app. simpl. lia.
Qed.

Lemma insert_middle (pre : heap) o o' suffix :
  <[length pre := o']> (pre ++ o :: suffix) = pre ++ o' :: suffix.
Proof. by rewrite insert_app_r_alt, Nat.sub_diag. Qed.

Ltac heap_steps :=
  repeat (rewrite ?lookup_middle, ?lookup_middle_next, ?insert_middle; simpl).

Lemma findMarchingVarType_pure varName h :
  findMarchingVarType varName ctx h = (lookupVar ctx varName, h).
Proof.
  unfold findMarchingVarType, lookupVar. destruct ctx as [| |vars]; try done.
  by destruct (find _ _).
Qed.

Lemma mapM_lookupVars args h :
  mapM (λ arg, bind (findMarchingVarType arg ctx) (λ type, ret (type, arg)))
       args h
  = (lookupVars ctx args, h).
Proof.
  induction args as [|arg args IH]; [done|]. simpl.
  rewrite !bind_run, findMarchingVarType_pure.
  destruct (lookupVar ctx arg); [|done]. simpl.
  rewrite bind_run, IH. by destruct (lookupVars ctx args).
Qed.

Lemma render_segment_spec pre d top suffix pidl :
  parent_at (S (length pre)) top suffix pidl →
  ∃ h', render_segment dfns ctx (length pre)
          (pre ++ mkSegment d top Undefined :: suffix)
        = match render_one dfns ctx pidl d with
          | Return (html, idl) =>
              (Return html, pre ++ mkSegment d top idl :: suffix)
          | Throw e => (Throw e, h')
          end.
Proof.
  intros Hp. unfold render_segment, bind at 1, load at 1.
  rewrite lookup_middle. destruct d as [id args|id|id e|id|id]; simpl.
  - unfold renderMethod, bind, load. heap_steps.
    destruct Hp as [[-> ->]|[-> (p & suffix' & -> & ->)]]; heap_steps.
    { by eexists. }
    rewrite mapM_lookupVars. destruct (lookupVars ctx args); by eexists.
  - unfold renderInternalSlot, bind, load, modify. heap_steps. by eexists.
  - unfold renderEnum, bind, load. heap_steps. by eexists.
  - unfold renderAttribute, bind, load. heap_steps.
    destruct Hp as [[-> ->]|[-> (p & suffix' & -> & ->)]]; heap_steps;
      by eexists.
  - unfold renderBase, bind, load, modify. heap_steps.
    rewrite findMarchingVarType_pure. destruct (lookupVar ctx id) as [t|e].
    2: { by eexists. }
    heap_steps. destruct (truthy t); heap_steps; by eexists.
Qed.

Lemma unrendered_length b top ds : length (unrendered b top ds) = length ds.
Proof. apply length_imap. Qed.

Lemma unrendered_snoc b top ds d :
  unrendered b top (ds ++ [d])
  = unrendered b (Ref (b + length ds)) ds ++ [mkSegment d top Undefined].
Proof.
  unfold unrendered. rewrite imap_app, length_app. simpl. f_equal.
  - apply imap_ext. intros j x Hj%lookup_lt_Some. simpl.
    destruct (Nat.ltb_spec (j + 1) (length ds + 1)); [|lia].
    destruct (Nat.ltb_spec (j + 1) (length ds)); [done|].
    do 2 f_equal. lia.
  - destruct (Nat.ltb_spec (length ds + 0 + 1) (length ds + 1)); [lia|done].
Qed.

(** The loop renders a linked chain as [render_chain] does, whatever the
    store holds before the chain. *)
Lemma render_loop_spec h : ∀ ds top suffix pidl output,
  parent_at (length h + length ds) top suffix pidl →
  (render_loop dfns ctx (reverse (seq (length h) (length ds))) output
     (h ++ unrendered (length h) top ds ++ suffix)).1
  = match render_chain dfns ctx pidl (reverse ds) with
    | Return out => Return (output ++ out)
    | Throw e => Throw e
    end.
Proof.
  induction ds as [|d ds IH] using rev_ind; intros top suffix pidl output Hp.
  { simpl. by rewrite app_nil_r. }
  rewrite length_app in *. simpl length in *.
  rewrite Nat.add_1_r, seq_S, !reverse_snoc, unrendered_snoc. simpl.
  rewrite bind_run, <- (assoc_L (++) _ [_] suffix), (assoc_L (++) h). simpl.
  pose proof (render_segment_spec (h ++ unrendered (length h)
                (Ref (length h + length ds)) ds) d top suffix pidl) as Hs.
  rewrite length_app, unrendered_length in Hs.
  destruct Hs as [h' ->].
  { by replace (S (length h + length ds))
         with (length h + (length ds + 1)) by lia. }
  destruct (render_one dfns ctx pidl d) as [[html idl]|e]; [|done].
  rewrite <- (assoc_L (++) h), (IH _ _ (Some idl)).
  - destruct (render_chain dfns ctx _ _); [|done]. by rewrite <- (assoc_L (++)).
  - right. split; [done|]. by eexists _, _.
Qed.

Lemma linked_unrendered b ds : linked b ds = unrendered b Null ds.
Proof. done. Qed.

(** [idlStringToHtml] in closed form: its result does not depend on the
    store it runs on. *)
Theorem idlStringToHtml_spec str h :
  let pending := reverse (split_char "." str) in
  (idlStringToHtml dfns str ctx h).1 =
  match rejected pending with
  | Some (v, pos) =>
      Throw (SyntaxError (syntax_error_message v (Z.of_nat pos)))
  | None =>
      match render_chain dfns ctx None (reverse (classified pending)) with
      | Return output => Return (hyperHTML [""; ""] [HNodes output])
      | Throw e => Throw e
      end
  end.
Proof.
  intros pending. unfold idlStringToHtml. rewrite bind_run.
  rewrite parseInlineIDL_spec. fold pending.
  destruct (rejected pending) as [[v pos]|]; [done|].
  rewrite bind_run, linked_unrendered.
  pose proof (render_loop_spec h (classified pending) Null [] None []
                (or_introl (conj eq_refl eq_refl))) as Hl.
  rewrite app_nil_r in Hl.
  destruct (render_loop _ _ _ _ _) as [[output|e] h'']; simpl in *;
    destruct (render_chain dfns ctx _ _); by simplify_eq.
Qed.

Lemma lookupVar_throw varName e :
  lookupVar ctx varName = Throw e → e = null_property_error.
Proof.
  unfold lookupVar. destruct ctx as [| |vars]; try congruence.
  destruct (find _ _); congruence.
Qed.

Lemma lookupVars_throw args e :
  lookupVars ctx args = Throw e → e = null_property_error.
Proof.
  induction args as [|arg args IH]; [done|]. simpl.
  destruct (lookupVar ctx arg) eqn:Hv.
  - destruct (lookupVars ctx args); [done|]. intros [= <-]. by apply IH.
  - intros [= <-]. by eapply lookupVar_throw.
Qed.

Lemma render_chain_throw ds : ∀ pidl e,
  render_chain dfns ctx pidl ds = Throw e → e = null_property_error.
Proof.
  induction ds as [|d ds IH]; intros pidl e; [done|]. simpl.
  destruct (render_one dfns ctx pidl d) as [[html idl]|e'] eqn:Hd.
  - destruct (render_chain dfns ctx (Some idl) ds) eqn:Hds; [done|].
    intros [= <-]. by eapply IH.
  - intros [= <-]. destruct d as [id args|id|id v|id|id]; simpl in Hd;
      try done.
    + destruct pidl; [|congruence].
      destruct (lookupVars ctx args) eqn:Hl; [done|].
      injection Hd as <-. by eapply lookupVars_throw.
    + destruct (lookupVar ctx id) eqn:Hl; [done|].
      injection Hd as <-. by eapply lookupVar_throw.
Qed.

(** What [idlStringToHtml] throws is the syntax error of the parser or the
    error of a property read off [null]: no reference of the model leaves
    the store, and no destructuring fails. *)
Theorem idlStringToHtml_throws str h e :
  (idlStringToHtml dfns str ctx h).1 = Throw e →
  (∃ v pos, e = SyntaxError (syntax_error_message v pos))
  ∨ e = null_property_error.
Proof.
  rewrite idlStringToHtml_spec.
  destruct (rejected _) as [[v pos]|]; [intros [= <-]; eauto|].
  destruct (render_chain dfns ctx None _) eqn:Hr; [done|].
  intros [= <-]. right. by eapply render_chain_throw.
Qed.

End RendererFacts.

(** ** The position in the message *)

Section MessageFacts.

Lemma digits_value_acc d : ∀ acc : positive,
  digits_value (Zpos acc) (NilEmpty.string_of_uint d)
  = Some (Zpos (Pos.of_uint_acc d acc)).
Proof.
  induction d as [|d IH|d IH|d IH|d IH|d IH|d IH|d IH|d IH|d IH|d IH];
    intros acc; [done|..];
    cbn [NilEmpty.string_of_uint digits_value Pos.of_uint_acc];
    (change (digit_value _) with (Some 0%Z)
     || change (digit_value _) with (Some 1%Z)
     || change (digit_value _) with (Some 2%Z)
     || change (digit_value _) with (Some 3%Z)
     || change (digit_value _) with (Some 4%Z)
     || change (digit_value _) with (Some 5%Z)
     || change (digit_value _) with (Some 6%Z)
     || change (digit_value _) with (Some 7%Z)
     || change (digit_value _) with (Some 8%Z)
     || change (digit_value _) with (Some 9%Z));
    cbv iota; rewrite <- IH; f_equal; lia.
Qed.

Lemma digits_value_uint d :
  digits_value 0 (NilEmpty.string_of_uint d) = Some (Z.of_N (Pos.of_uint d)).
Proof.
  induction d as [|d IH|d IH|d IH|d IH|d IH|d IH|d IH|d IH|d IH|d IH];
    [done|exact IH|..];
    cbn [NilEmpty.string_of_uint digits_value Pos.of_uint];
    (change (digit_value _) with (Some 1%Z)
     || change (digit_value _) with (Some 2%Z)
     || change (digit_value _) with (Some 3%Z)
     || change (digit_value _) with (Some 4%Z)
     || change (digit_value _) with (Some 5%Z)
     || change (digit_value _) with (Some 6%Z)
     || change (digit_value _) with (Some 7%Z)
     || change (digit_value _) with (Some 8%Z)
     || change (digit_value _) with (Some 9%Z));
    cbv iota; exact (digits_value_acc d _).
Qed.

Lemma to_uint_no_leading_zero p d : Pos.to_uint p ≠ Decimal.D0 d.
Proof.
  intros Hd. pose proof (Unsigned.to_of (Pos.to_uint p)) as Hn.
  rewrite Unsigned.of_to in Hn. simpl in Hn. rewrite Hd, unorm_D0 in Hn.
  assert (d ≠ Decimal.Nil) as Hnil.
  { intros ->. by apply (Unsigned.to_uint_nonzero p). }
  pose proof (nb_digits_unorm d Hnil) as Hlen. rewrite <- Hn in Hlen.
  simpl in Hlen. lia.
Qed.

(** The number the message shows for a position counted from 1 is the
    decimal numeral of that position. *)
Lemma decimal_value_position k :
  decimal_value (string_of_number (Z.of_nat k + 1)) = Some (Z.of_nat k + 1)%Z.
Proof.
  replace (Z.of_nat k + 1)%Z with (Zpos (Pos.of_succ_nat k)) by lia.
  set (p := Pos.of_succ_nat k). unfold string_of_number.
  change (Z.to_int (Zpos p)) with (Decimal.Pos (Pos.to_uint p)).
  cbn [NilZero.string_of_int]. unfold NilZero.string_of_uint.
  pose proof (Unsigned.to_uint_nonnil p) as Hnil.
  pose proof (to_uint_no_leading_zero p) as Hz.
  pose proof (digits_value_uint (Pos.to_uint p)) as Hv.
  rewrite Unsigned.of_to in Hv. simpl in Hv.
  destruct (Pos.to_uint p) as [|d|d|d|d|d|d|d|d|d|d]; try done.
  by destruct (Hz d).
Qed.

End MessageFacts.

(** * The claims *)

(** Evaluates [parseInlineIDL] on a given string and any store. *)
Ltac parse_eval :=
  rewrite parseInlineIDL_spec;
  match goal with
  | |- context [rejected ?p] =>
      let r := eval vm_compute in (rejected p) in
      change (rejected p) with r
  end;
  repeat match goal with
  | |- context [classified ?p] =>
      let c := eval vm_compute in (classified p) in
      change (classified p) with c
  end;
  cbn; rewrite ?Nat.add_0_r, ?Nat.add_1_r.

Section Claims.

(** C1. The code does not do what the claim says: on "Foo.[[bar]]" the
    parser throws the syntax error for the token "[[bar]]" at position 2,
    and the internal slot pattern accepts no token at all, since it asks
    for the end of the input before the brackets. *)
Theorem internal_slot_token_rejected :
  (∀ h, parseInlineIDL "Foo.[[bar]]" h
        = (Throw (SyntaxError (syntax_error_message "[[bar]]" 2)), h))
  ∧ (∀ s, test slotRegex s = false)
  ∧ (∀ str h chain h' a o id,
       parseInlineIDL str h = (Return chain, h') → a ∈ chain →
       h' !! a = Some o → details o ≠ InternalSlot id).
Proof.
  split_and!.
  - intros h. parse_eval. by rewrite app_nil_r.
  - apply slotRegex_test.
  - intros str h chain h' a o id Hp [i Hi]%list_elem_of_lookup Ho Hslot.
    destruct (parse_return _ _ _ _ Hp) as (Hlen & _ & _ & Hseg).
    pose proof (lookup_lt_Some _ _ _ Hi) as Hlt. rewrite Hlen in Hlt.
    apply lookup_lt_is_Some_2 in Hlt as [v Hv].
    destruct (Hseg _ _ Hv) as (d & a' & Hd & Ha' & Ho').
    simplify_eq/=. unfold classify in Hd. rewrite slotRegex_exec in Hd.
    simpl in Hd.
    destruct (captured2 (exec methodRegex v)) as [[? ?]|]; [done|].
    destruct (captured2 (exec enumRegex v)) as [[? ?]|]; [done|].
    destruct (test attributeRegex v); [|done]. by destruct (i =? 0)%nat.
Qed.

(** C2, counterexample: "baz()" parses to a chain of one method segment,
    with no base in it. *)
Lemma one_base_first_fails :
  ¬ ∀ str h chain h',
      parseInlineIDL str h = (Return chain, h') → one_base_first str h' chain.
Proof.
  intros H. destruct (H "baz()" [] [0] _ eq_refl) as [_ Hb].
  destruct (Hb 0 0 eq_refl) as (o & [= <-] & Ho). simpl in Ho.
  by destruct Ho as [_ Ho]; specialize (Ho eq_refl).
Qed.

(** C2, amended. When the parser succeeds on a string of N tokens (one more
    than it has dots) the chain has N segments, and a segment is a base
    exactly when it is the first one and the leftmost token is a bare word:
    so at most one segment is a base, only the first can be, and none is
    when the leftmost token is a method call or an enum value. *)
Theorem chain_length_and_base str h chain h' :
  parseInlineIDL str h = (Return chain, h') →
  length chain = length (tokens_of str)
  ∧ length chain = S (occurrences "." str)
  ∧ ∀ i a, chain !! i = Some a →
           ∃ o, h' !! a = Some o
                ∧ (is_base (details o) = true
                   ↔ i = 0 ∧ leftmost_is_bare_word str = true).
Proof.
  intros Hp. destruct (parse_return _ _ _ _ Hp) as (Hlen & _ & _ & Hseg).
  split; [done|]. split; [by rewrite Hlen, split_char_length|]. intros i a Hi.
  pose proof (lookup_lt_Some _ _ _ Hi) as Hlt. rewrite Hlen in Hlt.
  apply lookup_lt_is_Some_2 in Hlt as [v Hv].
  destruct (Hseg _ _ Hv) as (d & a' & Hd & Ha' & Ho). simplify_eq.
  eexists. split; [done|]. simpl. rewrite (classify_base _ _ _ Hd).
  unfold leftmost_is_bare_word, tokens_of.
  split; intros [-> Hw]; (split; [done|]).
  - by destruct (split_char "." str); simplify_eq/=.
  - by destruct (split_char "." str); simplify_eq/=.
Qed.

(** C2, witness: the chain of "Foo.bar". *)
Lemma chain_length_and_base_witness :
  parseInlineIDL "Foo.bar" [] = (Return [1; 0], foo_bar_heap)
  ∧ length [1; 0] = length (tokens_of "Foo.bar")
  ∧ length [1; 0] = S (occurrences "." "Foo.bar")
  ∧ ∀ i a, [1; 0] !! i = Some a →
           ∃ o, foo_bar_heap !! a = Some o
                ∧ (is_base (details o) = true
                   ↔ i = 0 ∧ leftmost_is_bare_word "Foo.bar" = true).
Proof.
  split; [reflexivity|].
  exact (chain_length_and_base "Foo.bar" [] [1; 0] foo_bar_heap eq_refl).
Defined.

(** C3, counterexample: the one segment of "baz()" is not a base, and its
    parent is [null]. *)
Lemma non_base_parent_fails :
  ¬ ∀ str h chain h' a o,
      parseInlineIDL str h = (Return chain, h') → a ∈ chain →
      h' !! a = Some o → is_base (details o) = false → parent o ≠ Null.
Proof.
  intros H.
  apply (H "baz()" [] [0] _ 0 (mkSegment (Method "baz" []) Null Undefined)
           eq_refl); [by apply list_elem_of_singleton|done..].
Qed.

(** C3, amended. In a chain the parser returns, the first segment has a
    [null] parent, every other segment has for parent the segment just to
    its left, and following the parent links from the segment at index
    [i] reaches the first segment in [i] steps and ends there. *)
Theorem parent_links str h chain h' :
  parseInlineIDL str h = (Return chain, h') →
  ∀ i a, chain !! i = Some a →
    ∃ o, h' !! a = Some o
         ∧ (i = 0 → parent o = Null)
         ∧ (∀ i', i = S i' → ∃ p, chain !! i' = Some p ∧ parent o = Ref p)
         ∧ follow h' i a = head chain
         ∧ follow h' (S i) a = None.
Proof.
  intros Hp. destruct (parse_return _ _ _ _ Hp) as (Hlen & _ & _ & Hseg).
  assert (∀ i a, chain !! i = Some a →
            ∃ o, h' !! a = Some o ∧ parent o = left_neighbour chain i)
    as Hpar.
  { intros i a Hi.
    pose proof (lookup_lt_Some _ _ _ Hi) as Hlt. rewrite Hlen in Hlt.
    apply lookup_lt_is_Some_2 in Hlt as [v Hv].
    destruct (Hseg _ _ Hv) as (d & a' & Hd & Ha' & Ho). simplify_eq.
    by eexists. }
  assert (∀ i a, chain !! i = Some a →
            follow h' i a = head chain ∧ follow h' (S i) a = None) as Hf.
  { induction i as [|i IH]; intros a Hi;
      destruct (Hpar _ _ Hi) as (o & Ho & Hpo); simpl in *.
    - rewrite Ho, Hpo, head_lookup. done.
    - rewrite Ho, Hpo.
      destruct (lookup_lt_is_Some_2 chain i) as [p Hpi].
      { apply lookup_lt_Some in Hi. lia. }
      rewrite Hpi. by apply IH. }
  intros i a Hi. destruct (Hpar _ _ Hi) as (o & Ho & Hpo).
  destruct (Hf _ _ Hi) as [Hf1 Hf2].
  exists o. split_and!; [done| | |done|done].
  - by intros ->.
  - intros i' ->. simpl in Hpo.
    destruct (lookup_lt_is_Some_2 chain i') as [p Hpi].
    { apply lookup_lt_Some in Hi. lia. }
    rewrite Hpi in Hpo. eauto.
Qed.

(** C3, witness: the attribute of "Foo.bar", at index 1 of its chain. *)
Lemma parent_links_witness :
  parseInlineIDL "Foo.bar" [] = (Return [1; 0], foo_bar_heap)
  ∧ [1; 0] !! 1 = Some 0
  ∧ ∃ o, foo_bar_heap !! 0 = Some o
         ∧ (1 = 0 → parent o = Null)
         ∧ (∀ i', 1 = S i' → ∃ p, [1; 0] !! i' = Some p ∧ parent o = Ref p)
         ∧ follow foo_bar_heap 1 0 = head [1; 0]
         ∧ follow foo_bar_heap 2 0 = None.
Proof.
  split; [reflexivity|]. split; [reflexivity|].
  exact (parent_links "Foo.bar" [] [1; 0] foo_bar_heap eq_refl 1 0 eq_refl).
Defined.

Lemma parse_throw str h e h' :
  parseInlineIDL str h = (Throw e, h') →
  ∃ v pos, rejected (reverse (tokens_of str)) = Some (v, pos)
           ∧ e = SyntaxError (syntax_error_message v (Z.of_nat pos)).
Proof.
  rewrite parseInlineIDL_spec. unfold tokens_of.
  destruct (rejected _) as [[v pos]|]; [|done]. intros [= <- <-]. eauto.
Qed.

(** C4. The parser throws exactly when some token is matched by none of
    the patterns; what it throws is then the syntax error whose message
    holds a token that no pattern matches (the rightmost such token) and
    the index of that token in the string, counted from 1: the message is
    the fixed text, the token between double quotes, [at token], the
    decimal numeral of the index and a full stop. The empty string and
    "Foo..bar" fail this way, the latter on the empty token at
    position 2. *)
Theorem syntax_error_iff_unmatched_token :
  (∀ str h,
     (∃ v, v ∈ tokens_of str ∧ accepts v = false)
     ↔ ∃ e h', parseInlineIDL str h = (Throw e, h'))
  ∧ (∀ str h e h',
       parseInlineIDL str h = (Throw e, h') →
       ∃ k v digits,
         tokens_of str !! k = Some v ∧ accepts v = false
         ∧ (∀ k' w, k < k' → tokens_of str !! k' = Some w →
                    accepts w = true)
         ∧ e = SyntaxError (syntax_error_message v (Z.of_nat k + 1))
         ∧ e = SyntaxError
                 ("IDL micro-syntax parsing error: " +:+ dq +:+ v +:+ dq
                  +:+ " at token " +:+ digits +:+ ".")
         ∧ decimal_value digits = Some (Z.of_nat k + 1)%Z)
  ∧ (∀ h, parseInlineIDL "" h
          = (Throw (SyntaxError (syntax_error_message "" 1)), h))
  ∧ (∀ h, (parseInlineIDL "Foo..bar" h).1
          = Throw (SyntaxError (syntax_error_message "" 2)))
  ∧ syntax_error_message "" 2
    = "IDL micro-syntax parsing error: " +:+ dq +:+ dq +:+ " at token 2.".
Proof.
  split_and!.
  - intros str h. split.
    + intros (v & Hv & Hacc). rewrite parseInlineIDL_spec.
      destruct (rejected _) as [[w pos]|] eqn:Hr; [by eauto|].
      apply rejected_None in Hr. rewrite Forall_forall in Hr.
      rewrite Hr in Hacc; [done|]. by apply elem_of_reverse.
    + intros (e & h' & (v & pos & Hr & _)%parse_throw).
      apply rejected_Some in Hr as (k & _ & Hk & Hacc & _).
      exists v. split; [|done]. by eapply list_elem_of_lookup_2.
  - intros str h e h' (v & pos & Hr & ->)%parse_throw.
    apply rejected_Some in Hr as (k & -> & Hk & Hacc & Hright).
    exists k, v, (string_of_number (Z.of_nat k + 1)).
    replace (Z.of_nat (S k)) with (Z.of_nat k + 1)%Z by lia.
    split_and!; [done..|]. apply decimal_value_position.
  - intros h. parse_eval. by rewrite app_nil_r.
  - intros h. by parse_eval.
  - reflexivity.
Qed.

(** C5. A token that the method pattern matches ends with a word, an
    opening parenthesis, a text and a closing parenthesis; the loop pushes
    for it a method segment whose identifier is the word and whose
    arguments are the text split on a comma followed by optional white
    space, without the empty strings. Every token made of a word and a
    parenthesised text free of line terminators is matched so. Empty
    parentheses give no argument, "arg1, arg2" gives the two arguments, and
    "Foo.baz(arg1, arg2)" parses to the base [Foo] and the method [baz] with
    these two. *)
Theorem method_arguments :
  (∀ v tokens count results h,
     test methodRegex v = true →
     ∃ pre id a,
       v = pre +:+ id +:+ "(" +:+ a +:+ ")"
       ∧ is_bare_word id = true
       ∧ match_ v methodRegex = Some [id +:+ "(" +:+ a +:+ ")"; id; a]
       ∧ parse_loop (v :: tokens) count results h
         = parse_loop tokens (count - 1)%Z (results ++ [length h])
             (h ++ [fresh (Method id (filter nonempty (split_args_spec a)))]))
  ∧ (∀ id a tokens count results h,
       is_bare_word id = true → no_line_terminator a = true →
       parse_loop ((id +:+ "(" +:+ a +:+ ")") :: tokens) count results h
       = parse_loop tokens (count - 1)%Z (results ++ [length h])
           (h ++ [fresh (Method id (filter nonempty (split_args_spec a)))]))
  ∧ filter nonempty (split_args_spec "") = []
  ∧ filter nonempty (split_args_spec "arg1, arg2") = ["arg1"; "arg2"]
  ∧ (∀ h, parseInlineIDL "Foo.baz(arg1, arg2)" h
          = (Return [length h + 1; length h],
             h ++ [mkSegment (Method "baz" ["arg1"; "arg2"])
                     (Ref (length h + 1)) Undefined;
                   mkSegment (Base "Foo") Null Undefined])).
Proof.
  split_and!; [| |reflexivity..|].
  - intros v tokens count results h [arr Harr]%test_true.
    destruct (exec_methodRegex _ _ Harr) as (pre & id & a & -> & Hid & _ & ->).
    exists pre, id, a. split_and!; [done..|].
    rewrite parse_loop_step. unfold classify. rewrite Harr. simpl.
    by rewrite split_regex_args.
  - intros id a tokens count results h Hid Ha.
    rewrite parse_loop_step. unfold classify.
    rewrite exec_methodRegex_call by done. simpl.
    by rewrite split_regex_args.
  - intros h. by parse_eval.
Qed.

(** C6, counterexample: "a().b" parses, and its leftmost token is
    classified as a method. *)
Lemma leftmost_is_base_fails :
  ¬ ∀ str h chain h',
      parseInlineIDL str h = (Return chain, h') →
      1 < length (tokens_of str) → leftmost_is_base str h' chain.
Proof.
  intros H. destruct (H "a().b" [] [1; 0] _ eq_refl) as (a & o & Ha & Ho & Hb).
  { vm_compute. lia. }
  by simplify_eq/=.
Qed.

(** C6, amended. When the parser succeeds, a token that is a bare word is
    classified by its position alone: as the base when it is the leftmost
    token (no token is left when it is processed), as an attribute
    anywhere else (tokens are left). In particular the leftmost token of
    a string of several tokens, when it is a bare word, is the base. *)
Theorem bare_word_base_or_attribute str h chain h' i v :
  parseInlineIDL str h = (Return chain, h') →
  tokens_of str !! i = Some v →
  is_bare_word v = true →
  ∃ a o, chain !! i = Some a ∧ h' !! a = Some o
         ∧ details o = (if (i =? 0)%nat then Base v else Attribute v).
Proof.
  intros Hp Hv Hw. destruct (parse_return _ _ _ _ Hp) as (_ & _ & _ & Hseg).
  destruct (Hseg _ _ Hv) as (d & a & Hd & Ha & Ho).
  rewrite classify_bare_word in Hd by done. simplify_eq. by eexists _, _.
Qed.

(** C6, witness: the token [Foo] of "Foo.bar". *)
Lemma bare_word_base_or_attribute_witness :
  parseInlineIDL "Foo.bar" [] = (Return [1; 0], foo_bar_heap)
  ∧ tokens_of "Foo.bar" !! 0 = Some "Foo"
  ∧ is_bare_word "Foo" = true
  ∧ ∃ a o, [1; 0] !! 0 = Some a ∧ foo_bar_heap !! a = Some o
           ∧ details o = Base "Foo".
Proof.
  split_and!; [reflexivity..|].
  exact (bare_word_base_or_attribute "Foo.bar" [] [1; 0] foo_bar_heap 0 "Foo"
           eq_refl eq_refl eq_refl).
Defined.

(** C7, counterexample: the chain of the enum form without a dot does not
    have two segments. *)
Lemma enum_single_token_two_segments_fails :
  ¬ ∃ chain h', parseInlineIDL enum_input [] = (Return chain, h')
                ∧ length chain = 2.
Proof. intros (chain & h' & Hp & Hlen). vm_compute in Hp. by simplify_eq. Qed.

(** C7, amended. The single token [Foo["enum value"]] parses to one
    segment, an enum value with the identifier [Foo] and the value
    [enum value], whose parent is [null]; the chain has no base. *)
Theorem enum_single_token h :
  parseInlineIDL enum_input h
  = (Return [length h],
     h ++ [mkSegment (EnumValue "Foo" "enum value") Null Undefined]).
Proof. by parse_eval. Qed.

(** C8. Rendering is deterministic: for a given document, context node and
    string, the result of [idlStringToHtml] (the fragment, or the error
    thrown) is the same on every store, and so the same when the call is
    made again after a first one. *)
Theorem rendering_deterministic dfns ctx str :
  (∀ h1 h2,
     (idlStringToHtml dfns str ctx h1).1 = (idlStringToHtml dfns str ctx h2).1)
  ∧ (∀ h,
       (idlStringToHtml dfns str ctx (idlStringToHtml dfns str ctx h).2).1
       = (idlStringToHtml dfns str ctx h).1).
Proof. split; intros; by rewrite !idlStringToHtml_spec. Qed.

(** C9. The single token "baz()" parses to one method segment whose parent
    is [null], the method pattern being tried whether or not tokens are
    left, while a bare word with no token left is the base and never an
    attribute; rendering that chain fails in [renderMethod], which reads
    [idlType] off the [null] parent. *)
Theorem method_without_parent :
  (∀ h, parseInlineIDL "baz()" h
        = (Return [length h],
           h ++ [mkSegment (Method "baz" []) Null Undefined]))
  ∧ (∀ ctx h,
       (renderMethod (length h) ctx
          (h ++ [mkSegment (Method "baz" []) Null Undefined])).1
       = Throw null_property_error)
  ∧ (∀ dfns ctx h,
       (idlStringToHtml dfns "baz()" ctx h).1 = Throw null_property_error)
  ∧ (∀ h, parseInlineIDL "baz" h
          = (Return [length h], h ++ [mkSegment (Base "baz") Null Undefined])).
Proof.
  split_and!.
  - intros h. by parse_eval.
  - intros ctx h. unfold renderMethod. rewrite bind_run. unfold load.
    by rewrite lookup_middle.
  - intros dfns ctx h. by rewrite idlStringToHtml_spec.
  - intros h. by parse_eval.
Qed.

(** C10. The method pattern may match from the middle of a token: the
    token "x]y(a, b)" raises no error and becomes a method segment with
    the identifier "y" and the arguments "a" and "b"; the text "x]" before
    the match is in no part of the result. *)
Theorem method_prefix_discarded :
  (∀ h, parseInlineIDL "x]y(a, b)" h
        = (Return [length h],
           h ++ [mkSegment (Method "y" ["a"; "b"]) Null Undefined]))
  ∧ exec methodRegex "x]y(a, b)" = Some ["y(a, b)"; "y"; "a, b"].
Proof. split; [|reflexivity]. intros h. by parse_eval. Qed.

End Claims.

(** * Further properties *)

(** ** The grammar the parser accepts *)

Section GrammarFacts.

Lemma step_intro cs e c (s : string) caps :
  mem cs c = true → State (S e) s caps ∈ step cs (State e (String c s) caps).
Proof. intros Hc. rewrite step_cons, Hc. by apply list_elem_of_singleton. Qed.

(** Every run of characters of a class is one of the ways to repeat it. *)
Lemma repeat_greedy_intro cs p : ∀ e caps s,
  string_forallb (mem cs) p = true →
  State (e + String.length p) s caps ∈ repeat_greedy cs e caps (p +:+ s).
Proof.
  induction p as [|ch p IH]; intros e caps s Hp.
  - rewrite sapp_nil_l, Nat.add_0_r. destruct s as [|c s]; simpl.
    + by apply list_elem_of_singleton.
    + destruct (mem cs c); rewrite ?elem_of_app, list_elem_of_singleton; auto.
  - simpl in Hp. apply andb_true_iff in Hp as [Hch Hp].
    rewrite sapp_cons. simpl. rewrite Hch, elem_of_app. left.
    rewrite <- Nat.add_succ_comm. by apply IH.
Qed.

Lemma group_plus_intro cs e p s caps :
  is_empty p = false → string_forallb (mem cs) p = true →
  State (e + String.length p) s (caps ++ [p])
  ∈ matcher (Group (Plus cs)) (State e (p +:+ s) caps).
Proof.
  intros Hne Hp. destruct p as [|ch p]; [done|].
  simpl in Hp. apply andb_true_iff in Hp as [Hch Hp].
  cbn [matcher]. apply list_elem_of_fmap.
  exists (State (e + String.length (String ch p)) s caps). split.
  - unfold close_group. cbn [endIndex rest captures]. do 3 f_equal.
    replace (_ - _) with (String.length (String ch p)) by lia.
    by rewrite take_string_app.
  - apply list_elem_of_bind. exists (State (S e) (p +:+ s) caps). split.
    + cbn [endIndex rest captures String.length].
      rewrite <- Nat.add_succ_comm. by apply repeat_greedy_intro.
    + rewrite sapp_cons. by apply step_intro.
Qed.

Lemma group_star_intro cs e p s caps :
  string_forallb (mem cs) p = true →
  State (e + String.length p) s (caps ++ [p])
  ∈ matcher (Group (Star cs)) (State e (p +:+ s) caps).
Proof.
  intros Hp. cbn [matcher]. apply list_elem_of_fmap.
  exists (State (e + String.length p) s caps). split.
  - unfold close_group. cbn [endIndex rest captures]. do 3 f_equal.
    replace (_ - _) with (String.length p) by lia.
    by rewrite take_string_app.
  - by apply repeat_greedy_intro.
Qed.

Lemma lit_intro c e (s : string) caps :
  State (S e) s caps ∈ matcher (Lit c) (State e (String c s) caps).
Proof. apply step_intro. simpl. apply Ascii.eqb_refl. Qed.

Lemma cat_intro r1 r2 x z y :
  z ∈ matcher r1 x → y ∈ matcher r2 z → y ∈ matcher (r1 ~> r2)%re x.
Proof. intros Hz Hy. cbn [matcher]. apply list_elem_of_bind. eauto. Qed.

Lemma assert_end_intro e caps :
  State e "" caps ∈ matcher AssertEnd (State e "" caps).
Proof. by apply list_elem_of_singleton. Qed.

Lemma assert_start_intro (s : string) caps :
  State 0 s caps ∈ matcher AssertStart (State 0 s caps).
Proof. by apply list_elem_of_singleton. Qed.

(** A match anywhere in the string makes [test] succeed. *)
Lemma exec_from_complete r p : ∀ i s' y,
  y ∈ matcher r (State (i + String.length p) s' []) →
  is_Some (exec_from r i (p +:+ s')).
Proof.
  induction p as [|c p IH]; intros i s' y Hy.
  - rewrite sapp_nil_l. simpl in Hy. rewrite Nat.add_0_r in Hy.
    destruct (match_at r i s') as [z|] eqn:Hz.
    + rewrite (exec_from_match _ _ _ _ Hz). by eexists.
    + unfold match_at in Hz. destruct (matcher r _); [|done].
      by apply elem_of_nil in Hy.
  - rewrite sapp_cons. cbn [exec_from].
    destruct (match_at r i _); [by eexists|].
    apply (IH _ _ y). by rewrite Nat.add_succ_comm.
Qed.

Lemma test_intro r p s' y :
  y ∈ matcher r (State (String.length p) s' []) → test r (p +:+ s') = true.
Proof.
  intros Hy. unfold test. apply bool_decide_eq_true.
  by apply (exec_from_complete r p 0 s' y).
Qed.

Lemma test_methodRegex_call pre id a :
  is_bare_word id = true → no_line_terminator a = true →
  test methodRegex (pre +:+ id +:+ "(" +:+ a +:+ ")") = true.
Proof.
  intros [Hne Hid]%andb_true_iff Ha.
  set (e := String.length pre).
  apply (test_intro _ pre _
           (State (S (S (e + String.length id) + String.length a)) ""
              [id; a])).
  fold e. unfold methodRegex.
  eapply cat_intro.
  { apply (group_plus_intro Word e id _ []); [|exact Hid].
    by destruct id. }
  change ("(" +:+ a +:+ ")") with (String "(" (a +:+ ")")).
  eapply cat_intro; [apply lit_intro|].
  eapply cat_intro.
  { apply (group_star_intro Dot _ a _ [id]). exact Ha. }
  change (String ")" "") with (String ")" ""). simpl app.
  eapply cat_intro; [apply lit_intro|]. apply assert_end_intro.
Qed.

Lemma test_enumRegex_form id e :
  is_bare_word id = true → enum_text e = true →
  test enumRegex (id +:+ "[" +:+ dq +:+ e +:+ dq +:+ "]") = true.
Proof.
  intros [Hne Hid]%andb_true_iff [Hne' He]%andb_true_iff.
  rewrite <- (sapp_nil_l (id +:+ _)).
  apply (test_intro _ "" _
           (State (S (S (S (S (String.length id)) + String.length e))) ""
              [id; e])).
  unfold enumRegex. cbn [String.length].
  eapply cat_intro; [apply assert_start_intro|].
  eapply cat_intro.
  { apply (group_plus_intro Word 0 id _ []); [|exact Hid].
    by destruct id. }
  change ("[" +:+ dq +:+ e +:+ dq +:+ "]")
    with (String "[" (String dquote (e +:+ dq +:+ "]"))).
  eapply cat_intro; [apply lit_intro|].
  eapply cat_intro; [apply lit_intro|].
  eapply cat_intro.
  { apply (group_plus_intro (Union Word (Char " ")) _ e _ [id]);
      [by destruct e|exact He]. }
  change (dq +:+ "]") with (String dquote (String "]" "")). simpl app.
  eapply cat_intro; [apply lit_intro|].
  eapply cat_intro; [apply lit_intro|]. apply assert_end_intro.
Qed.

(** The tokens the patterns accept are the bare words, the enum forms and
    the tokens that end with a call. *)
Lemma accepts_well_formed v : accepts v = true ↔ well_formed_token v.
Proof.
  unfold accepts, well_formed_token. rewrite slotRegex_test, orb_false_r.
  rewrite !orb_true_iff, test_attributeRegex. split.
  - intros [[[arr Hm]%test_true|[arr He]%test_true]|Hw]; [| |by left].
    + right. right.
      apply exec_methodRegex in Hm as (pre & id & a & -> & ? & ? & _).
      by exists pre, id, a.
    + right. left.
      apply exec_enumRegex in He as (id & e & -> & ? & ? & _).
      by exists id, e.
  - intros [Hw|[(id & e & -> & ? & ?)|(pre & id & a & -> & ? & ?)]].
    + by right.
    + left. right. by apply test_enumRegex_form.
    + left. left. by apply test_methodRegex_call.
Qed.

End GrammarFacts.

(** ** What a returned chain holds *)

Section ChainFacts.

(** X1. The parser returns exactly on the strings whose tokens are all well
    formed. *)
Theorem parse_succeeds_iff_well_formed str h :
  (∃ chain h', parseInlineIDL str h = (Return chain, h'))
  ↔ Forall well_formed_token (tokens_of str).
Proof.
  rewrite parseInlineIDL_spec. unfold tokens_of.
  assert (rejected (reverse (split_char "." str)) = None
          ↔ Forall well_formed_token (split_char "." str)) as <-.
  { rewrite rejected_None, Forall_reverse.
    split; intros H; (eapply Forall_impl; [exact H|]);
      intros v; apply accepts_well_formed. }
  destruct (rejected _) as [[v pos]|]; split; try done; eauto.
  by intros (? & ? & ?).
Qed.

(** What the loop pushes for a token, by the form of the token. *)
Lemma classify_inv v i d :
  classify v i = Some d →
  (∃ pre id a, v = pre +:+ id +:+ "(" +:+ a +:+ ")"
               ∧ is_bare_word id = true ∧ no_line_terminator a = true
               ∧ d = Method id (filter nonempty (split_args_spec a)))
  ∨ (∃ id e, v = id +:+ "[" +:+ dq +:+ e +:+ dq +:+ "]"
             ∧ is_bare_word id = true ∧ enum_text e = true
             ∧ d = EnumValue id e)
  ∨ (is_bare_word v = true
     ∧ d = if (i =? 0)%nat then Base v else Attribute v).
Proof.
  unfold classify. rewrite slotRegex_exec, test_attributeRegex.
  cbn [captured1].
  destruct (exec methodRegex v) as [arr|] eqn:Hm.
  { apply exec_methodRegex in Hm as (pre & id & a & -> & ? & ? & ->).
    cbn [captured2]. intros [= <-]. left. exists pre, id, a.
    by rewrite split_regex_args. }
  cbn [captured2]. destruct (exec enumRegex v) as [arr|] eqn:He.
  { apply exec_enumRegex in He as (id & e & -> & ? & ? & ->).
    cbn [captured2]. intros [= <-]. right. left. by exists id, e. }
  cbn [captured2]. destruct (is_bare_word v); [|done].
  intros [= <-]. by right; right.
Qed.

(** The object of a chain at index [i]: it holds what the loop pushes for
    the token at index [i], and its [idlType] is still [undefined]. *)
Lemma chain_object str h chain h' i a :
  parseInlineIDL str h = (Return chain, h') →
  chain !! i = Some a →
  ∃ o v, h' !! a = Some o ∧ tokens_of str !! i = Some v
         ∧ classify v i = Some (details o) ∧ idlType o = Undefined.
Proof.
  intros Hp Hi. destruct (parse_return _ _ _ _ Hp) as (Hlen & _ & _ & Hseg).
  pose proof (lookup_lt_Some _ _ _ Hi) as Hlt. rewrite Hlen in Hlt.
  apply lookup_lt_is_Some_2 in Hlt as [v Hv].
  destruct (Hseg _ _ Hv) as (d & a' & Hd & Ha' & Ho). simplify_eq.
  by eexists _, v.
Qed.

Lemma occurrences_app c (s t : string) :
  occurrences c (s +:+ t) = occurrences c s + occurrences c t.
Proof.
  induction s as [|c' s IH]; [done|]. rewrite sapp_cons. simpl.
  rewrite IH. lia.
Qed.

Lemma split_on_commas_no_comma s : ∀ b piece,
  occurrences "," piece = 0 →
  Forall (λ p, occurrences "," p = 0) (split_on_commas b piece s).
Proof.
  induction s as [|c s IH]; intros b piece Hp; simpl.
  { by constructor. }
  destruct (b && is_space c); [by apply IH|].
  destruct (Ascii.eqb c ",") eqn:Hc.
  - constructor; [done|]. by apply IH.
  - apply IH. rewrite occurrences_app. simpl. rewrite Hc. lia.
Qed.

(** X2. Every segment has a word for identifier, whatever its kind, and no
    [idlType] yet. *)
Theorem segment_identifier_is_word str h chain h' a :
  parseInlineIDL str h = (Return chain, h') →
  a ∈ chain →
  ∃ o, h' !! a = Some o
       ∧ is_bare_word (identifier (details o)) = true
       ∧ idlType o = Undefined.
Proof.
  intros Hp [i Hi]%list_elem_of_lookup.
  destruct (chain_object _ _ _ _ _ _ Hp Hi) as (o & v & Ho & Hv & Hd & Hidl).
  exists o. split_and!; [done| |done].
  apply classify_inv in Hd
    as [(pre & id & args & -> & Hid & _ & ->)
       |[(id & e & -> & Hid & _ & ->)|[Hw ->]]]; try done.
  by destruct (i =? 0)%nat.
Qed.

Lemma segment_identifier_is_word_witness :
  parseInlineIDL "Foo.baz(arg1, arg2)" [] = (Return [1; 0], foo_baz_heap)
  ∧ 1 ∈ [1; 0]
  ∧ ∃ o, foo_baz_heap !! 1 = Some o
         ∧ is_bare_word (identifier (details o)) = true
         ∧ idlType o = Undefined.
Proof.
  split; [reflexivity|]. split; [by apply list_elem_of_here|].
  exact (segment_identifier_is_word "Foo.baz(arg1, arg2)" [] [1; 0]
           foo_baz_heap 1 eq_refl (list_elem_of_here 1 [0])).
Defined.

(** X3. The arguments of a method segment: none is empty and none holds a
    comma. *)
Theorem method_args_nonempty_comma_free str h chain h' a o id args :
  parseInlineIDL str h = (Return chain, h') →
  a ∈ chain →
  h' !! a = Some o →
  details o = Method id args →
  Forall (λ arg, arg ≠ "" ∧ occurrences "," arg = 0) args.
Proof.
  intros Hp [i Hi]%list_elem_of_lookup Ho Hm.
  destruct (chain_object _ _ _ _ _ _ Hp Hi) as (o' & v & Ho' & Hv & Hd & _).
  simplify_eq. rewrite Hm in Hd.
  apply classify_inv in Hd
    as [(pre & id' & text & -> & _ & _ & [= -> ->])
       |[(? & ? & _ & _ & _ & ?)|[_ ?]]]; [|done|by destruct (i =? 0)%nat].
  apply Forall_forall. intros arg [Hne Harg]%list_elem_of_filter. split.
  - intros ->. done.
  - pose proof (split_on_commas_no_comma text false "" eq_refl) as Hall.
    rewrite Forall_forall in Hall. by apply Hall.
Qed.

Lemma method_args_nonempty_comma_free_witness :
  parseInlineIDL "Foo.baz(arg1, arg2)" [] = (Return [1; 0], foo_baz_heap)
  ∧ 0 ∈ [1; 0]
  ∧ foo_baz_heap !! 0
    = Some (mkSegment (Method "baz" ["arg1"; "arg2"]) (Ref 1) Undefined)
  ∧ Forall (λ arg, arg ≠ "" ∧ occurrences "," arg = 0) ["arg1"; "arg2"].
Proof.
  split; [reflexivity|].
  split; [by apply list_elem_of_further, list_elem_of_here|].
  split; [reflexivity|].
  exact (method_args_nonempty_comma_free "Foo.baz(arg1, arg2)" [] [1; 0]
           foo_baz_heap 0 _ "baz" ["arg1"; "arg2"] eq_refl
           (list_elem_of_further 0 1 [0] (list_elem_of_here 0 []))
           eq_refl eq_refl).
Defined.

(** X4. An enum segment comes from a token that is its identifier followed by
    its value between brackets and double quotes, and the value is one or
    more word characters or spaces. *)
Theorem enum_segment_token str h chain h' i a o id e :
  parseInlineIDL str h = (Return chain, h') →
  chain !! i = Some a →
  h' !! a = Some o →
  details o = EnumValue id e →
  tokens_of str !! i = Some (id +:+ "[" +:+ dq +:+ e +:+ dq +:+ "]")
  ∧ enum_text e = true.
Proof.
  intros Hp Hi Ho He.
  destruct (chain_object _ _ _ _ _ _ Hp Hi) as (o' & v & Ho' & Hv & Hd & _).
  simplify_eq. rewrite He in Hd.
  apply classify_inv in Hd
    as [(? & ? & ? & _ & _ & _ & ?)
       |[(id' & e' & -> & _ & He' & [= -> ->])|[_ ?]]];
    [done| |by destruct (i =? 0)%nat].
  done.
Qed.

Lemma enum_segment_token_witness :
  parseInlineIDL enum_input [] = (Return [0], enum_heap)
  ∧ [0] !! 0 = Some 0
  ∧ enum_heap !! 0 = Some (mkSegment (EnumValue "Foo" "enum value") Null Undefined)
  ∧ tokens_of enum_input !! 0
    = Some ("Foo" +:+ "[" +:+ dq +:+ "enum value" +:+ dq +:+ "]")
  ∧ enum_text "enum value" = true.
Proof.
  split_and!; [reflexivity..| |].
  all: apply (enum_segment_token enum_input [] [0] enum_heap 0 0 _
                "Foo" "enum value" eq_refl eq_refl eq_refl eq_refl).
Defined.

(** X5. The parser only allocates: the store it is given is the beginning of
    the store it leaves, whether it returns or throws; when it returns, the
    chain is made of the objects just allocated, one per token and each
    once. *)
Theorem parse_allocates_fresh str h r h' :
  parseInlineIDL str h = (r, h') →
  ∃ new, h' = h ++ new
         ∧ ∀ chain, r = Return chain →
             length new = length (tokens_of str)
             ∧ NoDup chain
             ∧ ∀ a, a ∈ chain ↔ length h ≤ a < length h'.
Proof.
  rewrite parseInlineIDL_spec. unfold tokens_of.
  destruct (rejected _) as [[v pos]|] eqn:Hr; intros [= <- <-].
  { eexists. split; [done|]. by intros chain. }
  pose proof (rejected_None_length _ Hr) as Hlen.
  rewrite length_reverse in Hlen.
  eexists. split; [done|]. intros chain [= <-].
  assert (length (linked (length h) (classified (reverse (split_char "." str))))
          = length (split_char "." str)) as Hl.
  { unfold linked. by rewrite length_imap. }
  split_and!; [done| |].
  - rewrite reverse_Permutation. apply NoDup_seq.
  - intros a. rewrite elem_of_reverse, elem_of_seq, length_app, Hl, Hlen. lia.
Qed.

Lemma parse_allocates_fresh_witness :
  parseInlineIDL "Foo.bar" [] = (Return [1; 0], foo_bar_heap)
  ∧ ∃ new, foo_bar_heap = [] ++ new
           ∧ ∀ chain, Return [1; 0] = Return chain →
               length new = length (tokens_of "Foo.bar")
               ∧ NoDup chain
               ∧ ∀ a, a ∈ chain ↔ length (@nil Segment) ≤ a < length foo_bar_heap.
Proof.
  split; [reflexivity|].
  exact (parse_allocates_fresh "Foo.bar" [] _ foo_bar_heap eq_refl).
Defined.

Lemma omap_Forall2 {A B} (f : A → option B) l k :
  Forall2 (λ x y, f x = Some y) l k → omap f l = k.
Proof.
  induction 1 as [|x y l k Hxy _ IH]; [done|].
  cbn [omap list_omap]. rewrite Hxy. simpl. by f_equal.
Qed.

(** X6. A dotted name comes back from its chain: when every token is a bare
    word, the identifiers of the segments, joined by dots, are the string
    that was parsed. *)
Theorem dotted_name_round_trip str h chain h' :
  parseInlineIDL str h = (Return chain, h') →
  Forall (λ v, is_bare_word v = true) (tokens_of str) →
  String.concat "." (chain_identifiers h' chain) = str.
Proof.
  intros Hp Hw.
  assert (chain_identifiers h' chain = tokens_of str) as ->.
  { apply omap_Forall2, Forall2_same_length_lookup_2.
    { by destruct (parse_return _ _ _ _ Hp) as [? _]. }
    intros i a v Hi Hv.
    destruct (chain_object _ _ _ _ _ _ Hp Hi) as (o & v' & Ho & Hv' & Hd & _).
    simplify_eq. rewrite Ho. simpl. f_equal.
    pose proof (Forall_lookup_1 _ _ _ _ Hw Hv) as Hbw. simpl in Hbw.
    rewrite classify_bare_word in Hd by done.
    injection Hd as <-. by destruct (i =? 0)%nat. }
  apply split_char_concat.
Qed.

Lemma dotted_name_round_trip_witness :
  parseInlineIDL "Foo.bar" [] = (Return [1; 0], foo_bar_heap)
  ∧ Forall (λ v, is_bare_word v = true) (tokens_of "Foo.bar")
  ∧ String.concat "." (chain_identifiers foo_bar_heap [1; 0]) = "Foo.bar".
Proof.
  split; [reflexivity|].
  assert (Forall (λ v, is_bare_word v = true) (tokens_of "Foo.bar")) as Hw
    by (repeat constructor).
  split; [exact Hw|].
  exact (dotted_name_round_trip "Foo.bar" [] [1; 0] foo_bar_heap eq_refl Hw).
Defined.

End ChainFacts.

(** ** What the renderer returns *)

Section RenderFacts.

Variable dfns : list Element.
Variable ctx : Context.

(** The details of a chain in the order of the tokens. *)
Lemma rendered_details tokens :
  rejected (reverse tokens) = None →
  length (reverse (classified (reverse tokens))) = length tokens
  ∧ ∀ i v, tokens !! i = Some v →
      ∃ d, classify v i = Some d
           ∧ reverse (classified (reverse tokens)) !! i = Some d.
Proof.
  intros Hr. pose proof (rejected_None_length _ Hr) as Hlen.
  rewrite length_reverse in Hlen. split; [by rewrite length_reverse|].
  intros i v Hi. pose proof (lookup_lt_Some _ _ _ Hi) as Hlt.
  assert (reverse tokens !! (length tokens - S i) = Some v) as Hj.
  { rewrite reverse_lookup by lia.
    by replace (length tokens - S (length tokens - S i)) with i by lia. }
  destruct (classified_lookup _ Hr _ _ Hj) as (d & Hd & Hcd).
  rewrite length_reverse in Hd.
  replace (length tokens - S (length tokens - S i)) with i in Hd by lia.
  exists d. split; [done|]. rewrite reverse_lookup by lia. by rewrite Hlen.
Qed.

Lemma lookupVar_total varName :
  ctx ≠ Detached → ∃ t, lookupVar ctx varName = Return t.
Proof.
  unfold lookupVar. destruct ctx as [| |vars]; [by eexists|done|].
  destruct (find _ _); by eexists.
Qed.

Lemma lookupVars_total args :
  ctx ≠ Detached → ∃ typed, lookupVars ctx args = Return typed.
Proof.
  intros Hctx. induction args as [|arg args [typed IH]]; [by eexists|].
  simpl. destruct (lookupVar_total arg Hctx) as [t ->]. rewrite IH.
  by eexists.
Qed.

(** After the first segment every segment has a parent, and nothing
    fails. *)
Lemma render_chain_total ds : ∀ idl,
  ctx ≠ Detached →
  ∃ out, render_chain dfns ctx (Some idl) ds = Return out
         ∧ length out = length ds.
Proof.
  induction ds as [|d ds IH]; intros idl Hctx; [by eexists|].
  assert (∃ html idl', render_one dfns ctx (Some idl) d = Return (html, idl'))
    as (html & idl' & Hd).
  { destruct d as [id args|id|id e|id|id]; simpl; try by eexists _, _.
    - destruct (lookupVars_total args Hctx) as [typed ->]. by eexists _, _.
    - destruct (lookupVar_total id Hctx) as [t ->].
      destruct (truthy t); by eexists _, _. }
  simpl. rewrite Hd. destruct (IH idl' Hctx) as (out & -> & Hlen).
  eexists. split; [done|]. simpl. by rewrite Hlen.
Qed.

Lemma classify_call v i :
  test methodRegex v = true → ∃ id args, classify v i = Some (Method id args).
Proof.
  intros Ht. pose proof (captured2_test methodRegex v eq_refl) as Hm.
  rewrite Ht in Hm. destruct Hm as [[id a] Hm].
  unfold classify. rewrite Hm. by eexists _, _.
Qed.

Lemma classify_not_call v i d :
  test methodRegex v = false → classify v i = Some d →
  match d with Method _ _ => False | _ => True end.
Proof.
  intros Ht. pose proof (captured2_test methodRegex v eq_refl) as Hm.
  rewrite Ht in Hm. unfold classify. rewrite Hm, slotRegex_exec. simpl.
  destruct (captured2 (exec enumRegex v)) as [[? ?]|]; [by intros [= <-]|].
  destruct (test attributeRegex v); [|done]. intros [= <-].
  by destruct (i =? 0)%nat.
Qed.

Lemma parse_return_rejected str h chain h' :
  parseInlineIDL str h = (Return chain, h') →
  rejected (reverse (tokens_of str)) = None.
Proof.
  rewrite parseInlineIDL_spec. unfold tokens_of.
  by destruct (rejected _) as [[? ?]|].
Qed.

(** The details of a parsed chain, from the left: those of the leftmost
    token, pushed when no token is left, then the others. *)
Lemma rendered_details_cons str h chain h' :
  parseInlineIDL str h = (Return chain, h') →
  ∃ v vs d ds,
    tokens_of str = v :: vs ∧ classify v 0 = Some d
    ∧ reverse (classified (reverse (tokens_of str))) = d :: ds
    ∧ length ds = length vs.
Proof.
  intros Hr%parse_return_rejected.
  destruct (rendered_details _ Hr) as [Hlen Hdet].
  pose proof (split_char_length "." str) as Hn. fold (tokens_of str) in Hn.
  destruct (tokens_of str) as [|v vs]; [done|].
  destruct (Hdet 0 v eq_refl) as (d & Hd & Hl).
  destruct (reverse (classified _)) as [|d' ds]; simplify_eq/=.
  by exists v, vs, d, ds.
Qed.

(** X7. When the parser succeeds, rendering fails exactly on the chains that
    start with a method call, whose segment has no parent to read a type
    off; on every other chain, and with a context node that has an
    enclosing section or none at all, it returns a fragment of one node
    per token. *)
Theorem render_fails_iff_leading_call str h chain h' :
  parseInlineIDL str h = (Return chain, h') →
  (leftmost_is_call str = true →
   (idlStringToHtml dfns str ctx h).1 = Throw null_property_error)
  ∧ (leftmost_is_call str = false → ctx ≠ Detached →
     ∃ nodes, (idlStringToHtml dfns str ctx h).1 = Return (fragment nodes)
              ∧ length nodes = length (tokens_of str)).
Proof.
  intros Hp. rewrite idlStringToHtml_spec. fold (tokens_of str).
  rewrite (parse_return_rejected _ _ _ _ Hp).
  destruct (rendered_details_cons _ _ _ _ Hp)
    as (v & vs & d & ds & Htok & Hd & Hds & Hlen).
  rewrite Hds. unfold leftmost_is_call. rewrite Htok.
  split.
  - intros Hcall. destruct (classify_call v 0 Hcall) as (id & args & Hm).
    simplify_eq. done.
  - intros Hcall Hctx. pose proof (classify_not_call _ _ _ Hcall Hd) as Hnm.
    assert (∃ html idl, render_one dfns ctx None d = Return (html, idl))
      as (html & idl & Hone).
    { destruct d as [id args|id|id e|id|id]; simpl; try done;
        try by eexists _, _.
      destruct (lookupVar_total id Hctx) as [t ->].
      destruct (truthy t); by eexists _, _. }
    cbn [render_chain]. rewrite Hone.
    destruct (render_chain_total ds idl Hctx) as (out & -> & Hout).
    exists (html :: out). split; [done|]. simpl. by rewrite Hout, Hlen.
Qed.




(** X9. With a context node that has no parent element, a chain that starts
    with a bare word is not rendered: looking the base up in the context
    reads a property off [null]. *)
Theorem detached_context_throws str h chain h' :
  parseInlineIDL str h = (Return chain, h') →
  leftmost_is_bare_word str = true →
  (idlStringToHtml dfns str Detached h).1 = Throw null_property_error.
Proof.
  intros Hp Hw.
  destruct (rendered_details_cons _ _ _ _ Hp)
    as (v & vs & d & ds & Htok & Hd & Hds & Hlen).
  rewrite idlStringToHtml_spec. fold (tokens_of str).
  rewrite (parse_return_rejected _ _ _ _ Hp), Hds.
  unfold leftmost_is_bare_word in Hw. rewrite Htok in Hw.
  rewrite classify_bare_word in Hd by done. by simplify_eq/=.
Qed.

Lemma classify_call_form id a i :
  is_bare_word id = true → no_line_terminator a = true →
  classify (id +:+ "(" +:+ a +:+ ")") i
  = Some (Method id (filter nonempty (split_args_spec a))).
Proof.
  intros Hid Ha. unfold classify.
  rewrite exec_methodRegex_call by done. simpl. by rewrite split_regex_args.
Qed.

End RenderFacts.

Lemma render_fails_iff_leading_call_witness :
  parseInlineIDL "Foo.bar" [] = (Return [1; 0], foo_bar_heap)
  ∧ leftmost_is_call "Foo.bar" = false ∧ NoContext ≠ Detached
  ∧ ∃ nodes,
      (idlStringToHtml [] "Foo.bar" NoContext []).1 = Return (fragment nodes)
      ∧ length nodes = length (tokens_of "Foo.bar").
Proof.
  split_and!; [reflexivity|reflexivity|discriminate|].
  apply (proj2 (render_fails_iff_leading_call [] NoContext "Foo.bar" []
                  [1; 0] foo_bar_heap eq_refl)); [reflexivity|discriminate].
Defined.


Lemma detached_context_throws_witness :
  parseInlineIDL "Foo.bar" [] = (Return [1; 0], foo_bar_heap)
  ∧ leftmost_is_bare_word "Foo.bar" = true
  ∧ (idlStringToHtml [] "Foo.bar" Detached []).1 = Throw null_property_error.
Proof.
  split_and!; [reflexivity..|].
  exact (detached_context_throws [] "Foo.bar" [] [1; 0] foo_bar_heap
           eq_refl eq_refl).
Defined.

Section StoreFacts.

Variable ctx : Context.

Lemma set_idlType_details (h : heap) a o t :
  h !! a = Some o → details <$> <[a := set_idlType t o]> h = details <$> h.
Proof.
  intros Ha. rewrite list_fmap_insert. apply list_insert_id.
  by rewrite list_lookup_fmap, Ha.
Qed.

Lemma keeps_ret {A} (a : A) : keeps_details (ret a).
Proof. by intros h. Qed.

Lemma keeps_throw {A} e : keeps_details (@throw A e).
Proof. by intros h. Qed.

Lemma keeps_load a : keeps_details (load a).
Proof. intros h. unfold load. by destruct (h !! a). Qed.

Lemma keeps_set_idlType a t : keeps_details (modify a (set_idlType t)).
Proof.
  intros h. unfold modify. destruct (h !! a) as [o|] eqn:Ha; [|done].
  by apply set_idlType_details.
Qed.

Lemma keeps_bind {A B} (m : M A) (k : A → M B) :
  keeps_details m → (∀ a, keeps_details (k a)) → keeps_details (bind m k).
Proof.
  intros Hm Hk h. rewrite bind_run. specialize (Hm h).
  destruct (m h) as [[a|e] h1]; simpl in *; [|done]. by rewrite Hk.
Qed.

Lemma keeps_findMarchingVarType varName :
  keeps_details (findMarchingVarType varName ctx).
Proof. intros h. by rewrite findMarchingVarType_pure. Qed.

Lemma keeps_mapM {A B} (f : A → M B) l :
  (∀ x, keeps_details (f x)) → keeps_details (mapM f l).
Proof.
  intros Hf. induction l as [|x l IH]; simpl; [apply keeps_ret|].
  apply keeps_bind; [done|]. intros y.
  apply keeps_bind; [done|]. intros ys. apply keeps_ret.
Qed.

Ltac keeps :=
  repeat first
    [ apply keeps_ret | apply keeps_throw | apply keeps_load
    | apply keeps_set_idlType | apply keeps_findMarchingVarType
    | apply keeps_mapM | apply keeps_bind
    | match goal with
      | |- keeps_details (match ?x with _ => _ end) => destruct x
      | |- ∀ _, _ => intros ?
      end ].

(** Rendering a segment leaves the details of every object as they are,
    whether it returns or throws: it writes types only. *)
Lemma render_segment_details dfns d : keeps_details (render_segment dfns ctx d).
Proof.
  unfold render_segment, renderBase, renderAttribute, renderInternalSlot,
    renderMethod, renderEnum. keeps.
Qed.

Lemma render_segment_dfns dfns1 dfns2 d h :
  (∀ x, (details <$> h) !! d = Some x → type x ≠ "internal-slot") →
  render_segment dfns1 ctx d h = render_segment dfns2 ctx d h.
Proof.
  intros Hx. unfold render_segment. rewrite !bind_run.
  destruct (load d h) as [[o|e] h1] eqn:Hd; [|done].
  unfold load in Hd. destruct (h !! d) as [o'|] eqn:Hd'; simplify_eq.
  specialize (Hx (details o)). rewrite list_lookup_fmap, Hd' in Hx.
  specialize (Hx eq_refl). by destruct (details o).
Qed.

Lemma render_loop_dfns dfns1 dfns2 results : ∀ output h,
  Forall (λ d, ∀ x, (details <$> h) !! d = Some x → type x ≠ "internal-slot")
         results →
  render_loop dfns1 ctx results output h
  = render_loop dfns2 ctx results output h.
Proof.
  induction results as [|d results IH]; intros output h Hall; [done|].
  apply Forall_cons in Hall as [Hd Hall]. simpl. rewrite !bind_run.
  rewrite (render_segment_dfns dfns1 dfns2) by done.
  pose proof (render_segment_details dfns2 d h) as Hs.
  destruct (render_segment dfns2 ctx d h) as [[html|e] h1]; [|done].
  apply IH. simpl in Hs. by rewrite Hs.
Qed.

Lemma classify_no_slot v i d :
  classify v i = Some d → type d ≠ "internal-slot".
Proof.
  unfold classify. rewrite slotRegex_exec. simpl.
  destruct (captured2 (exec methodRegex v)) as [[? ?]|]; [by intros [= <-]|].
  destruct (captured2 (exec enumRegex v)) as [[? ?]|]; [by intros [= <-]|].
  destruct (test attributeRegex v); [|done]. intros [= <-].
  by destruct (i =? 0)%nat.
Qed.

Lemma classified_no_slot pending :
  Forall (λ d, type d ≠ "internal-slot") (classified pending).
Proof.
  induction pending as [|v tokens IH]; simpl; [done|].
  destruct (classify v (length tokens)) as [d|] eqn:Hd; [|done].
  constructor; [by eapply classify_no_slot|done].
Qed.

Lemma linked_details b ds : details <$> linked b ds = ds.
Proof.
  unfold linked. apply list_eq. intros j.
  rewrite list_lookup_fmap, list_lookup_imap. by destruct (ds !! j).
Qed.

Lemma render_loop_details dfns results : ∀ output,
  keeps_details (render_loop dfns ctx results output).
Proof.
  induction results as [|d results IH]; intros output; simpl.
  - apply keeps_ret.
  - apply keeps_bind; [apply render_segment_details|]. intros html. apply IH.
Qed.

(** X10. The result of [idlStringToHtml], and the store it leaves, do not
    depend on the [dfn] elements of the document: no token is classified
    as an internal slot, the only kind of segment whose rendering looks the
    definitions up. And rendering never changes the details (the type, the
    identifier, the arguments, the enum value) of an object: the loop
    leaves the details of every object of the store as they are, on every
    store and for every array of segments, whether it returns or throws;
    so the objects that [idlStringToHtml] leaves have the details the
    parser gave them. *)
Theorem rendering_ignores_dfns str h :
  (∀ dfns1 dfns2,
     idlStringToHtml dfns1 str ctx h = idlStringToHtml dfns2 str ctx h)
  ∧ (∀ dfns results output h0,
       details <$> (render_loop dfns ctx results output h0).2
       = details <$> h0)
  ∧ (∀ dfns,
       details <$> (idlStringToHtml dfns str ctx h).2
       = details <$> (parseInlineIDL str h).2).
Proof.
  split_and!.
  - intros dfns1 dfns2.
    unfold idlStringToHtml. rewrite !bind_run, parseInlineIDL_spec.
    destruct (rejected _) as [[v pos]|]; [done|].
    rewrite !bind_run, (render_loop_dfns dfns1 dfns2); [done|].
    apply Forall_forall. intros a Ha x. rewrite elem_of_reverse in Ha.
    apply elem_of_seq in Ha as [Hlo Hhi].
    rewrite fmap_app, linked_details, lookup_app_r
      by (rewrite length_fmap; lia).
    intros Hx.
    pose proof (classified_no_slot (reverse (split_char "." str))) as Hall.
    rewrite Forall_lookup in Hall. by eapply Hall.
  - intros dfns results output h0. apply render_loop_details.
  - intros dfns. unfold idlStringToHtml. rewrite bind_run.
    destruct (parseInlineIDL str h) as [[results|e] h1]; [|done].
    rewrite bind_run.
    pose proof (render_loop_details dfns results [] h1) as Hl.
    by destruct (render_loop dfns ctx results [] h1) as [[output|e] h2].
Qed.

End StoreFacts.

Section CallFacts.

Variable dfns : list Element.
Variable ctx : Context.

Lemma lookupVar_var_type name :
  ctx ≠ Detached → lookupVar ctx name = Return (var_type ctx name).
Proof.
  unfold lookupVar, var_type. destruct ctx as [| |vars]; [done..|].
  by destruct (find _ _).
Qed.

Lemma lookupVars_var_type args :
  ctx ≠ Detached →
  lookupVars ctx args = Return ((λ arg, (var_type ctx arg, arg)) <$> args).
Proof.
  intros Hctx. induction args as [|arg args IH]; [done|]. simpl.
  by rewrite lookupVar_var_type, IH.
Qed.

(** X11. A call on a name, [w.id(a)]: the base [w] renders as a variable of the
    type the context gives it, or else as a link; the method renders as a
    link for the type of the base (that type, or the word [w] itself), and
    each argument, the text [a] split on commas without the empty pieces,
    as a variable of the type the context gives it, [null] when it gives
    none. *)
Theorem call_rendering str h w id a :
  tokens_of str = [w; id +:+ "(" +:+ a +:+ ")"] →
  is_bare_word w = true → is_bare_word id = true →
  no_line_terminator a = true →
  ctx ≠ Detached →
  (idlStringToHtml dfns str ctx h).1
  = Return (fragment
              [base_html (var_type ctx w) w;
               method_html "method" (base_type (var_type ctx w) w) id
                 (args_text ctx (filter nonempty (split_args_spec a)))]).
Proof.
  intros Htok Hw Hid Ha Hctx. rewrite idlStringToHtml_spec.
  fold (tokens_of str). rewrite Htok.
  change (reverse [w; id +:+ "(" +:+ a +:+ ")"])
    with [id +:+ "(" +:+ a +:+ ")"; w].
  cbn [rejected classified length].
  rewrite classify_call_form, (classify_bare_word w 0) by done.
  cbn [Nat.eqb reverse rev_append render_chain render_one].
  change (reverse ?l) with (rev_append l []). cbn [rev_append].
  cbn [render_chain render_one].
  rewrite lookupVar_var_type by done. unfold base_html, base_type, args_text.
  destruct (truthy (var_type ctx w)); cbn [render_chain render_one type];
    rewrite lookupVars_var_type by done; by rewrite <- list_fmap_compose.
Qed.

End CallFacts.

Lemma call_rendering_witness :
  tokens_of "Foo.baz(arg1, arg2)" = ["Foo"; "baz" +:+ "(" +:+ "arg1, arg2" +:+ ")"]
  ∧ is_bare_word "Foo" = true ∧ is_bare_word "baz" = true
  ∧ no_line_terminator "arg1, arg2" = true
  ∧ Within [mkElement "arg2 " "long"] ≠ Detached
  ∧ (idlStringToHtml [] "Foo.baz(arg1, arg2)"
       (Within [mkElement "arg2 " "long"]) []).1
    = Return (fragment
                [xref_html "Foo";
                 method_html "method" (Str "Foo") "baz"
                   ("<var data-type=" +:+ dq +:+ "null" +:+ dq +:+ ">arg1</var>"
                    +:+ ", <var data-type=" +:+ dq +:+ "long" +:+ dq
                    +:+ ">arg2</var>")]).
Proof.
  split_and!; [reflexivity..|discriminate|].
  exact (call_rendering [] (Within [mkElement "arg2 " "long"])
           "Foo.baz(arg1, arg2)" [] "Foo" "baz" "arg1, arg2"
           eq_refl eq_refl eq_refl eq_refl
           (λ H, eq_ind (Within [mkElement "arg2 " "long"])
                   (λ c, match c with Within _ => True | _ => False end)
                   I Detached H)).
Defined.

Section LookupFacts.

Lemma srev_app_acc (s acc : string) :
  String.rev_app s acc = String.rev s +:+ acc.
Proof.
  unfold String.rev. revert acc.
  induction s as [|c s IH]; intros acc; [done|]. simpl.
  by rewrite (IH (String c acc)), (IH (String c "")), sapp_assoc.
Qed.

Lemma srev_cons c (s : string) :
  String.rev (String c s) = String.rev s +:+ String c "".
Proof. unfold String.rev at 1. simpl. apply srev_app_acc. Qed.

Lemma srev_app (s t : string) :
  String.rev (s +:+ t) = String.rev t +:+ String.rev s.
Proof.
  induction s as [|c s IH]; [by rewrite sapp_nil_l, sapp_nil_r|].
  by rewrite sapp_cons, !srev_cons, IH, sapp_assoc.
Qed.

Lemma srev_involutive (s : string) : String.rev (String.rev s) = s.
Proof.
  induction s as [|c s IH]; [done|]. by rewrite srev_cons, srev_app, IH.
Qed.

Lemma sforallb_rev p (s : string) :
  string_forallb p (String.rev s) = string_forallb p s.
Proof.
  induction s as [|c s IH]; [done|].
  rewrite srev_cons, sforallb_app, IH. simpl. by rewrite andb_true_r, andb_comm.
Qed.

Lemma trimStart_spaces (pre s : string) :
  string_forallb is_space pre = true → trimStart (pre +:+ s) = trimStart s.
Proof.
  induction pre as [|c pre IH]; [done|]. simpl.
  intros [-> Hpre]%andb_true_iff. by apply IH.
Qed.

Lemma trimStart_all_space (s : string) :
  string_forallb is_space s = true → trimStart s = "".
Proof.
  intros Hs. rewrite <- (sapp_nil_r s). by rewrite trimStart_spaces.
Qed.

Lemma trimStart_trimmed (s : string) :
  starts_with_space s = false → trimStart s = s.
Proof. destruct s as [|c s]; [done|]. simpl. by intros ->. Qed.

Lemma trimStart_starts (s : string) : starts_with_space (trimStart s) = false.
Proof.
  induction s as [|c s IH]; [done|]. simpl.
  destruct (is_space c) eqn:Hc; [done|]. simpl. done.
Qed.

Lemma trimStart_ends (s : string) :
  trimStart s = "" ∨ ends_with_space (trimStart s) = ends_with_space s.
Proof.
  induction s as [|c s IH]; [by left|]. simpl trimStart.
  destruct (is_space c); [|by right].
  destruct IH as [IH|IH]; [by left|]. destruct s as [|c' s]; [by left|].
  right. by rewrite IH.
Qed.

Lemma starts_with_space_app (piece s : string) :
  piece ≠ "" → starts_with_space (piece +:+ s) = starts_with_space piece.
Proof. by destruct piece. Qed.

Lemma srev_nonempty c (s : string) : String.rev (String c s) ≠ "".
Proof. rewrite srev_cons. by destruct (String.rev s). Qed.

Lemma starts_with_space_rev (s : string) :
  starts_with_space (String.rev s) = ends_with_space s.
Proof.
  induction s as [|c s IH]; [done|]. rewrite srev_cons.
  destruct s as [|c' s]; [done|].
  rewrite starts_with_space_app by apply srev_nonempty. by rewrite IH.
Qed.

Lemma ends_with_space_rev (s : string) :
  ends_with_space (String.rev s) = starts_with_space s.
Proof. by rewrite <- starts_with_space_rev, srev_involutive. Qed.

(** Trimming a text that has no white space at either end, padded with
    white space on both sides, gives that text back. *)
Lemma trim_padded (pre core post : string) :
  starts_with_space core = false → ends_with_space core = false →
  string_forallb is_space pre = true → string_forallb is_space post = true →
  trim (pre +:+ core +:+ post) = core.
Proof.
  intros Hs He Hpre Hpost. unfold trim. rewrite trimStart_spaces by done.
  destruct core as [|c core].
  { by rewrite sapp_nil_l, (trimStart_all_space post). }
  rewrite (trimStart_trimmed (String c core +:+ post))
    by by rewrite starts_with_space_app.
  rewrite srev_app, (trimStart_spaces (String.rev post))
    by by rewrite sforallb_rev.
  rewrite (trimStart_trimmed (String.rev (String c core)))
    by by rewrite starts_with_space_rev.
  apply srev_involutive.
Qed.

(** A trimmed text has no white space at either end. *)
Lemma trim_trimmed (s : string) :
  starts_with_space (trim s) = false ∧ ends_with_space (trim s) = false.
Proof.
  unfold trim. rewrite starts_with_space_rev, ends_with_space_rev.
  split; [|apply trimStart_starts].
  destruct (trimStart_ends (String.rev (trimStart s))) as [->| ->]; [done|].
  rewrite ends_with_space_rev. apply trimStart_starts.
Qed.

(** X12. [findMarchingVarType] compares the name with the trimmed text of
    the [var] elements, in document order. For a name that has no white
    space at either end, an element whose text is the name with white
    space around it is found, and its type returned, when no element
    before it has a text that trims to the name: padding does not hide a
    variable, and an earlier variable shadows the later ones. For a name
    that starts or ends with white space the result is [null] whatever the
    elements are, a trimmed text never being such a name. *)
Theorem padded_var_found :
  (∀ vars1 e vars2 name pre post h,
     starts_with_space name = false → ends_with_space name = false →
     string_forallb is_space pre = true →
     string_forallb is_space post = true →
     textContent e = pre +:+ name +:+ post →
     Forall (λ x, trim (textContent x) ≠ name) vars1 →
     findMarchingVarType name (Within (vars1 ++ e :: vars2)) h
     = (Return (Str (dataType e)), h))
  ∧ (∀ vars name h,
       starts_with_space name = true ∨ ends_with_space name = true →
       findMarchingVarType name (Within vars) h = (Return Null, h)).
Proof.
  split.
  - intros vars1 e vars2 name pre post h Hs Hend Hpre Hpost He Hnot.
    unfold findMarchingVarType.
    assert (find (matches name) (vars1 ++ e :: vars2) = Some e) as ->; [|done].
    induction Hnot as [|x vars1 Hx _ IH]; simpl.
    + unfold matches at 1. by rewrite He, trim_padded, String.eqb_refl.
    + unfold matches at 1. by apply String.eqb_neq in Hx as ->.
  - intros vars name h Hname. unfold findMarchingVarType.
    assert (find (matches name) vars = None) as ->; [|done].
    induction vars as [|x vars IH]; [done|]. simpl. unfold matches at 1.
    destruct (String.eqb_spec (trim (textContent x)) name) as [<-|_]; [|done].
    destruct (trim_trimmed (textContent x)) as [Hs He].
    destruct Hname; congruence.
Qed.

Lemma padded_var_found_witness :
  (starts_with_space "foo" = false ∧ ends_with_space "foo" = false
   ∧ string_forallb is_space (nl +:+ "  ") = true
   ∧ string_forallb is_space " " = true
   ∧ textContent (mkElement (nl +:+ "  foo ") "Foo")
     = (nl +:+ "  ") +:+ "foo" +:+ " "
   ∧ Forall (λ x, trim (textContent x) ≠ "foo") [mkElement "food" "Bar"]
   ∧ findMarchingVarType "foo"
       (Within ([mkElement "food" "Bar"]
                ++ mkElement (nl +:+ "  foo ") "Foo" :: [mkElement "foo" "Baz"]))
       []
     = (Return (Str "Foo"), []))
  ∧ (ends_with_space "a " = true
     ∧ findMarchingVarType "a " (Within [mkElement "a " "T"]) []
       = (Return Null, [])).
Proof.
  assert (Forall (λ x, trim (textContent x) ≠ "foo") [mkElement "food" "Bar"])
    as Hnot.
  { repeat constructor. discriminate. }
  split.
  - split_and!; [reflexivity..|exact Hnot|].
    exact (proj1 padded_var_found [mkElement "food" "Bar"]
             (mkElement (nl +:+ "  foo ") "Foo") [mkElement "foo" "Baz"]
             "foo" (nl +:+ "  ") " " [] eq_refl eq_refl eq_refl eq_refl
             eq_refl Hnot).
  - split; [reflexivity|].
    exact (proj2 padded_var_found [mkElement "a " "T"] "a " []
             (or_intror eq_refl)).
Defined.

End LookupFacts.

Section EnumFacts.

Lemma last_char c1 c2 (s t : string) :
  s +:+ String c1 "" = t +:+ String c2 "" → c1 = c2.
Proof.
  intros H%(f_equal String.rev). rewrite !srev_app in H.
  by injection H.
Qed.

Lemma prefix_unique (p : ascii → bool) c (s1 t1 s2 t2 : string) :
  string_forallb p s1 = true → string_forallb p s2 = true → p c = false →
  s1 +:+ String c t1 = s2 +:+ String c t2 → s1 = s2 ∧ t1 = t2.
Proof.
  intros H1 H2 Hc. revert s2 H2.
  induction s1 as [|a s1 IH]; intros [|b s2] H2 Heq; simpl in *.
  - by simplify_eq.
  - rewrite sapp_nil_l, sapp_cons in Heq. simplify_eq.
    by rewrite Hc in H2.
  - rewrite sapp_nil_l, sapp_cons in Heq. simplify_eq.
    by rewrite Hc in H1.
  - rewrite !sapp_cons in Heq. simplify_eq.
    apply andb_true_iff in H1 as [_ H1]. apply andb_true_iff in H2 as [_ H2].
    destruct (IH H1 s2 H2 H) as [-> ->]. done.
Qed.

Lemma occurrences_forallb (p : ascii → bool) c (s : string) :
  string_forallb p s = true → p c = false → occurrences c s = 0.
Proof.
  intros Hs Hc. induction s as [|a s IH]; [done|]. simpl in *.
  apply andb_true_iff in Hs as [Ha Hs]. rewrite (IH Hs).
  destruct (Ascii.eqb_spec a c) as [->|]; [congruence|done].
Qed.

Lemma split_char_single sep s : occurrences sep s = 0 → split_char sep s = [s].
Proof.
  induction s as [|c s IH]; [done|]. simpl.
  destruct (Ascii.eqb c sep); [done|]. intros Hs. by rewrite (IH Hs).
Qed.

(** The enum form is matched by the enum pattern only, with its own word
    and text as the groups. *)
Lemma classify_enum_form id e i :
  is_bare_word id = true → enum_text e = true →
  classify (id +:+ "[" +:+ dq +:+ e +:+ dq +:+ "]") i = Some (EnumValue id e).
Proof.
  intros Hid He. unfold classify.
  destruct (exec methodRegex _) as [arr|] eqn:Hm.
  { apply exec_methodRegex in Hm as (pre & id' & a & Hv & _).
    rewrite <- !sapp_assoc in Hv. by apply last_char in Hv. }
  rewrite slotRegex_exec. cbn [captured1 captured2].
  pose proof (test_enumRegex_form id e Hid He) as [arr Harr]%test_true.
  rewrite Harr.
  apply exec_enumRegex in Harr as (id' & e' & Hv & Hid' & He' & ->).
  apply andb_true_iff in Hid as [_ Hid], Hid' as [_ Hid'].
  apply andb_true_iff in He as [_ He], He' as [_ He'].
  apply (prefix_unique is_word "[") in Hv as [<- Hv]; [|done..].
  change (dq +:+ ?s) with (String dquote s) in Hv. injection Hv as Hv.
  apply (prefix_unique (λ c, is_word c || Ascii.eqb " " c) dquote) in Hv
    as [<- _]; done.
Qed.

(** X13. An enum value on its own, a word followed by a quoted text of word
    characters and spaces in square brackets, renders as one link for the
    word that shows the text. Neither the context node nor the document is
    consulted, so this needs no context and works with a detached one. *)
Theorem enum_rendering dfns ctx id e h :
  is_bare_word id = true → enum_text e = true →
  (idlStringToHtml dfns (id +:+ "[" +:+ dq +:+ e +:+ dq +:+ "]") ctx h).1
  = Return (fragment [enum_html "enum-value" id (Str e)]).
Proof.
  intros Hid He. rewrite idlStringToHtml_spec.
  rewrite split_char_single.
  2: { pose proof Hid as [_ Hid']%andb_true_iff.
       pose proof He as [_ He']%andb_true_iff.
       rewrite !occurrences_app.
       rewrite (occurrences_forallb _ "." id Hid') by done.
       by rewrite (occurrences_forallb _ "." e He'). }
  change (reverse [?v]) with [v]. cbn [rejected classified length].
  by rewrite classify_enum_form.
Qed.

Lemma enum_rendering_witness :
  is_bare_word "Foo" = true ∧ enum_text "enum value" = true
  ∧ (idlStringToHtml [] enum_input Detached []).1
    = Return (fragment [enum_html "enum-value" "Foo" (Str "enum value")]).
Proof.
  split_and!; [reflexivity..|].
  exact (enum_rendering [] Detached "Foo" "enum value" [] eq_refl eq_refl).
Defined.

End EnumFacts.

Section ArgumentFacts.

Lemma split_on_commas_trimmed s : ∀ b piece,
  (if b : bool then piece = ""
   else piece ≠ "" ∧ starts_with_space piece = false) →
  Forall (λ p, starts_with_space p = false) (split_on_commas b piece s).
Proof.
  induction s as [|c s IH]; intros b piece Hp; simpl.
  { constructor; [|done]. by destruct b; [subst|destruct Hp]. }
  destruct (b && is_space c) eqn:Hsp.
  { apply andb_true_iff in Hsp as [-> _]. by apply (IH true). }
  destruct (Ascii.eqb c ",") eqn:Hc.
  - constructor; [by destruct b; [subst|destruct Hp]|]. by apply (IH true).
  - apply (IH false). destruct b; simpl in Hsp.
    + subst. by rewrite sapp_nil_l.
    + destruct Hp as [Hne Hp]. rewrite starts_with_space_app by done.
      split; [by destruct piece|done].
Qed.

Lemma split_on_commas_tail s : ∀ piece,
  ∃ p rest, split_on_commas false piece s = p :: rest
            ∧ Forall (λ p, starts_with_space p = false) rest.
Proof.
  induction s as [|c s IH]; intros piece; simpl; [by eexists _, _|].
  destruct (Ascii.eqb c ","); [|apply IH].
  eexists _, _. split; [done|]. by apply split_on_commas_trimmed.
Qed.

(** X14. The separator of the arguments takes the white space after a comma,
    not the white space before it: every argument but the first starts
    with a character that is not white space, while white space at the end
    of an argument, and at the start of the first one, stays in it. *)
Theorem later_args_start_trimmed str h chain h' a o id args j arg :
  parseInlineIDL str h = (Return chain, h') →
  a ∈ chain →
  h' !! a = Some o →
  details o = Method id args →
  args !! S j = Some arg →
  starts_with_space arg = false.
Proof.
  intros Hp [i Hi]%list_elem_of_lookup Ho Hm Hj.
  destruct (chain_object _ _ _ _ _ _ Hp Hi) as (o' & v & Ho' & Hv & Hd & _).
  simplify_eq. rewrite Hm in Hd.
  apply classify_inv in Hd
    as [(pre & id' & text & -> & _ & _ & [= -> ->])
       |[(? & ? & _ & _ & _ & ?)|[_ ?]]]; [|done|by destruct (i =? 0)%nat].
  unfold split_args_spec in Hj.
  destruct (split_on_commas_tail text "") as (p & rest & Hs & Hall).
  rewrite Hs, filter_cons in Hj.
  assert (arg ∈ filter nonempty rest) as [_ Hin]%list_elem_of_filter.
  { destruct (decide (nonempty p)).
    - by eapply list_elem_of_lookup_2.
    - by eapply list_elem_of_lookup_2. }
  rewrite Forall_forall in Hall. by apply Hall.
Qed.

Lemma later_args_start_trimmed_witness :
  parseInlineIDL "Foo.baz( a , b)" [] = (Return [1; 0], padded_args_heap)
  ∧ 0 ∈ [1; 0]
  ∧ padded_args_heap !! 0
    = Some (mkSegment (Method "baz" [" a "; "b"]) (Ref 1) Undefined)
  ∧ [" a "; "b"] !! 1 = Some "b"
  ∧ starts_with_space "b" = false.
Proof.
  assert (0 ∈ [1; 0]) as Hin by (apply list_elem_of_lookup; by exists 1).
  split_and!; [reflexivity|exact Hin|reflexivity|reflexivity|].
  exact (later_args_start_trimmed "Foo.baz( a , b)" [] [1; 0] padded_args_heap
           0 _ "baz" [" a "; "b"] 0 "b" eq_refl Hin eq_refl eq_refl eq_refl).
Defined.

End ArgumentFacts.
